(** * Loss functions of [src/utils/loss.py]

    A shallow embedding of the tensor computations of [loss.py]:
    [CrossEntropyLoss], [MarginRankingLoss], [OriTripletLoss],
    [TripletLoss_WRT] and the helpers [pdist_ms], [addmm] and
    [softmax_weights].

    Modelling conventions.
    - A float tensor of rank 2 is a list of rows ([mat]), one of rank 1 a list
      ([vec]).  Scalars are real numbers: the definitions denote the exact
      arithmetic of the source formulas, which float32 follows up to
      rounding.
    - Two properties are decided by the rounding itself: whether the norm
      expansion [|a|^2 + |b|^2 - 2 a.b] of [pdist_ms] cancels for equal rows,
      and whether [S + 1e-6] differs from [S] in [softmax_weights].  For
      these the two helpers are embedded a second time on IEEE 754 binary32
      values ([Module Float32], on the [spec_float] operations of the
      standard library with precision 24 and maximal exponent 128).  The
      kernels [P.Exp] and [P.Pow], which IEEE 754 does not fix, are
      parameters there.
    - Integer label tensors are lists of [Z].
    - The framework operators ([P.Pow], [P.ReduceSum], [P.BroadcastTo],
      [P.matmul], ...) are the definitions of [Module Tensor].  Elementwise
      binary operators follow the broadcasting rule of the framework for
      dimensions of size one.  The one operator whose target shape is written
      in the source, [P.BroadcastTo], is partial: it returns [None] where the
      framework raises.
    - A list of rows cannot hold a matrix with zero rows and a positive number
      of columns, so results about [transpose] and [matmul] ask for a feature
      dimension of at least one. *)

From Stdlib Require Import Reals List ZArith Lia Lra Bool Permutation SpecFloat.
Import ListNotations.
Local Open Scope R_scope.

(** ** Framework operators *)

Module Tensor.

Abbreviation vec := (list R).
Abbreviation mat := (list (list R)).

(** Padding value of out-of-range reads, per element type. *)
Class Zero (A : Type) := zero : A.
#[export] Instance Zero_R : Zero R := 0.
#[export] Instance Zero_Z : Zero Z := 0%Z.

(** [tab n f] is the list [f 0; ...; f (n-1)]. *)
Definition tab {A} (n : nat) (f : nat -> A) : list A := map f (seq 0 n).

Definition tab2 {A} (m n : nat) (f : nat -> nat -> A) : list (list A) :=
  tab m (fun i => tab n (f i)).

(** [t.shape[1]] *)
Definition ncols {A} (t : list (list A)) : nat := length (hd [] t).

(** [t[i][j]] *)
Definition at2 {A} `{Zero A} (t : list (list A)) (i j : nat) : A :=
  nth j (nth i t []) zero.

(** [shape m n t]: the tensor [t] has shape [(m, n)]. *)
Definition shape {A} (m n : nat) (t : list (list A)) : Prop :=
  length t = m /\ Forall (fun r => length r = n) t.

(** [P.Transpose()(t, (1, 0))] and [t.T] *)
Definition transpose {A} `{Zero A} (t : list (list A)) : list (list A) :=
  tab (ncols t) (fun j => map (fun r => nth j r zero) t).

(** Sum of all the elements of a rank-1 tensor. *)
Definition sum (v : vec) : R := fold_right Rplus 0 v.

(** Largest and smallest element of a row. *)
Definition rmax (v : vec) : R :=
  match v with
  | [] => 0
  | x :: xs => fold_right Rmax x xs
  end.

Definition rmin (v : vec) : R :=
  match v with
  | [] => 0
  | x :: xs => fold_right Rmin x xs
  end.

(** Mean of all the elements of a rank-1 tensor. *)
Definition mean (v : vec) : R := sum v / INR (length v).

(** Elementwise binary operator on one axis, a dimension of size one being
    stretched to the other operand's.  On operands that do not conform the
    framework raises and the model pairs the common prefix; the statements
    below carry the shapes of their operands as hypotheses. *)
Definition bcast2 {A B C} (f : A -> B -> C) (x : list A) (y : list B) : list C :=
  match x, y with
  | [a], _ => map (f a) y
  | _, [b] => map (fun a => f a b) x
  | _, _ => map (fun p => f (fst p) (snd p)) (combine x y)
  end.

(** Elementwise binary operator on rank-2 tensors. *)
Definition ew2 {A B C} (f : A -> B -> C) : list (list A) -> list (list B) -> list (list C) :=
  bcast2 (bcast2 f).

(** [P.Add], [P.Sub], [P.Mul] and [/] on rank-2 tensors. *)
Definition add : mat -> mat -> mat := ew2 Rplus.
Definition sub : mat -> mat -> mat := ew2 Rminus.
Definition mul : mat -> mat -> mat := ew2 Rmult.
Definition div : mat -> mat -> mat := ew2 Rdiv.

(** The same on rank-1 tensors. *)
Definition vsub : vec -> vec -> vec := bcast2 Rminus.
Definition vmul : vec -> vec -> vec := bcast2 Rmult.

(** A Python scalar on one side: [c * t], [t + c], [-t]. *)
Definition smul (c : R) (t : mat) : mat := map (map (Rmult c)) t.
Definition sadd (t : mat) (c : R) : mat := map (map (fun v => v + c)) t.
Definition neg (t : mat) : mat := map (map Ropp) t.
Definition vsadd (v : vec) (c : R) : vec := map (fun x => x + c) v.
Definition vneg (v : vec) : vec := map Ropp v.

(** [P.Pow()(t, n)] for an integer exponent. *)
Definition pow_ms (t : mat) (n : nat) : mat := map (map (fun v => v ^ n)) t.

(** [P.Exp] and [P.Sqrt] *)
Definition exp_ms (t : mat) : mat := map (map exp) t.
Definition sqrt_ms (t : mat) : mat := map (map sqrt) t.

(** [P.ReduceSum(keep_dims=True)(t, 1)]: shape [(m, n)] to [(m, 1)]. *)
Definition ReduceSum_keep (t : mat) : mat := map (fun r => [sum r]) t.
(** [P.ReduceMax(keep_dims=True)(t, 1)] and [P.ReduceMin(keep_dims=True)(t, 1)] *)
Definition ReduceMax_keep (t : mat) : mat := map (fun r => [rmax r]) t.
Definition ReduceMin_keep (t : mat) : mat := map (fun r => [rmin r]) t.

(** [t.squeeze()] on a tensor of shape [(m, 1)]: the rank-1 tensor of its
    elements.  For [m = 1] the framework returns a tensor of rank 0; the
    model keeps it as a list of one element, and no statement below draws a
    returned value from a batch of one. *)
Definition squeeze (t : mat) : vec := concat t.

(** Position of the first occurrence of [x] in a row. *)
Fixpoint index_of (x : R) (v : vec) : nat :=
  match v with
  | [] => 0
  | y :: ys => if Req_dec_T y x then 0%nat else S (index_of x ys)
  end.

(** [P.ArgMaxWithValue(axis=1, keep_dims=True)]: the indices and the values
    of the row maxima. *)
Definition ArgMaxWithValue_keep (t : mat) : list (list nat) * mat :=
  (map (fun r => [index_of (rmax r) r]) t, map (fun r => [rmax r]) t).

(** Dot product of a row and a column. *)
Definition dot (r c : vec) : R :=
  sum (map (fun p => fst p * snd p) (combine r c)).

(** [P.matmul(a, b)]: every row of [a] against every column of [b]. *)
Definition matmul (a b : mat) : mat :=
  map (fun r => map (dot r) (transpose b)) a.

(** [P.composite.clip_by_value(t, lo, hi)]: [max(min(t, hi), lo)]. *)
Definition clip (lo hi v : R) : R := Rmax (Rmin v hi) lo.
Definition clip_by_value (t : mat) (clip_value_min clip_value_max : R) : mat :=
  map (map (clip clip_value_min clip_value_max)) t.

(** [P.Equal], [P.NotEqual] on integer tensors and [P.GreaterEqual] against a
    scalar. *)
Definition equal : list (list Z) -> list (list Z) -> list (list bool) := ew2 Z.eqb.
Definition notequal : list (list Z) -> list (list Z) -> list (list bool) :=
  ew2 (fun a b => negb (Z.eqb a b)).
Definition vge (v : vec) (c : R) : list bool :=
  map (fun x => if Rle_dec c x then true else false) v.

(** [P.Cast] of a boolean tensor to a numeric type; the product with a float
    tensor promotes the result to float, so the mask is kept as reals. *)
Definition b2r (b : bool) : R := if b then 1 else 0.
Definition cast (t : list (list bool)) : mat := map (map b2r) t.
Definition vcast (v : list bool) : vec := map b2r v.

(** [P.OnesLike] *)
Definition ones_like (v : vec) : vec := map (fun _ => 1) v.

(** [P.ReduceMean(keep_dims=True)(v)] over all the axes of a rank-1 tensor. *)
Definition ReduceMean_keep (v : vec) : vec := [mean v].

(** [t.mean(0)]: the mean of every column, shape [(m, n)] to [(n)]. *)
Definition mean_axis0 (t : mat) : vec := map mean (transpose t).

(** [nn.LogSoftmax(axis=1)] *)
Definition LogSoftmax (t : mat) : mat :=
  map (fun r => map (fun v => v - ln (sum (map exp r))) r) t.

(** [nn.OneHot(depth=depth, axis=-1)] with the default on and off values. *)
Definition OneHot (depth : nat) (labels : list Z) : mat :=
  map (fun l => tab depth (fun k => b2r (Z.eqb (Z.of_nat k) l))) labels.

(** One axis of [P.BroadcastTo]: a dimension of size one is repeated, a
    dimension of the requested size is kept, anything else is an error. *)
Definition stretch {A} (n : nat) (l : list A) : option (list A) :=
  match l with
  | [a] => Some (repeat a n)
  | _ => if Nat.eqb (length l) n then Some l else None
  end.

Fixpoint opt_all {A} (l : list (option A)) : option (list A) :=
  match l with
  | [] => Some []
  | Some a :: l' => option_map (cons a) (opt_all l')
  | None :: _ => None
  end.

(** [P.BroadcastTo((m, n))(t)] for [t] of rank 2. *)
Definition BroadcastTo {A} (shp : nat * nat) (t : list (list A)) : option (list (list A)) :=
  match opt_all (map (stretch (snd shp)) t) with
  | Some rows => stretch (fst shp) rows
  | None => None
  end.

(** [P.ReduceSum()(t, 1)]: shape [(m, n)] to [(m)]. *)
Definition ReduceSum (t : mat) : vec := map sum t.

(** [msnp.full(shape, c)] for a shape of rank 1. *)
Definition full (n : nat) (c : R) : vec := repeat c n.

(** [nn.SoftMarginLoss()] with its default reduction: the mean of
    [log(1 + exp(-y * x))]. *)
Definition SoftMarginLoss (x y : vec) : R :=
  mean (bcast2 (fun a b => ln (1 + exp (- b * a))) x y).

End Tensor.

Import Tensor.

Notation "x <- e ;; k" := (match e with Some x => k | None => None end)
  (at level 61, e at next level, right associativity).

(** ** [class CrossEntropyLoss] *)

Module CrossEntropyLoss.

Record t := { num_classes : nat; eps : R }.

(** [__init__(self, num_classes, eps=0.1, label_smooth=True)] *)
Definition init (num_classes : nat) (eps : R) (label_smooth : bool) : t :=
  {| num_classes := num_classes; eps := if label_smooth then eps else 0 |}.

Definition construct (self : t) (inputs : mat) (targets : list Z) : R :=
  let log_probs := LogSoftmax inputs in
  let depth := ncols log_probs in
  let targets := OneHot depth targets in
  let targets :=
    sadd (smul (1 - eps self) targets) (eps self / INR (num_classes self)) in
  sum (mean_axis0 (mul (neg targets) log_probs)).

End CrossEntropyLoss.

(** ** [class MarginRankingLoss] *)

Module MarginRankingLoss.

Record t := { margin : R }.

(** [__init__(self, margin=0)] *)
Definition init (margin : R) : t := {| margin := margin |}.

(** The operands are the rank-1 tensors [OriTripletLoss] passes. *)
Definition construct (self : t) (input1 input2 y : vec) : vec :=
  let temp1 := vneg (vsub input1 input2) in
  let temp2 := vmul temp1 y in
  let temp3 := vsadd temp2 (margin self) in
  let temp3_mask := vge temp3 0 in
  let loss := ReduceMean_keep (vmul temp3 (vcast temp3_mask)) in
  loss.

End MarginRankingLoss.

(** ** [class OriTripletLoss] *)

Module OriTripletLoss.

Record t := { margin : R; batch_size : nat }.

(** [__init__(self, margin=0.3, batch_size=64)] *)
Definition init (margin : R) (batch_size : nat) : t :=
  {| margin := margin; batch_size := batch_size |}.

(** [self.ranking_loss = MarginRankingLoss(self.margin)] *)
Definition ranking_loss (self : t) : MarginRankingLoss.t :=
  MarginRankingLoss.init (margin self).

(** [self.expand = P.BroadcastTo((batch_size, batch_size))] *)
Definition expand {A} (self : t) : list (list A) -> option (list (list A)) :=
  BroadcastTo (batch_size self, batch_size self).

(** Lines 135-147 of [construct]: the pairwise distance matrix. *)
Definition pairwise_distance (self : t) (inputs : mat) : option mat :=
  let dist := pow_ms inputs 2 in
  let dist := ReduceSum_keep dist in
  dist <- expand self dist ;;
  let dist := add dist (transpose dist) in
  let temp1 := matmul inputs (transpose inputs) in
  let temp1 := smul (-2) temp1 in
  let dist := add dist temp1 in
  let dist := clip_by_value dist 1e-12 100000000 in
  let dist := sqrt_ms dist in
  Some dist.

(** Lines 149-157 of [construct]: the hardest positive and the hardest
    negative of every anchor, [(dist_ap, dist_an)].  The rank-1 [targets] is
    broadcast as a tensor of one row. *)
Definition hard_mining (self : t) (dist : mat) (targets : list Z) : option (vec * vec) :=
  targets <- expand self [targets] ;;
  let mask_pos := cast (equal targets (transpose targets)) in
  let mask_neg := cast (notequal targets (transpose targets)) in
  let dist_ap := squeeze (ReduceMax_keep (mul dist mask_pos)) in
  let dist_an :=
    squeeze (ReduceMin_keep (add (mul (ReduceMax_keep (mul dist mask_neg)) mask_pos) dist)) in
  Some (dist_ap, dist_an).

Definition construct (self : t) (inputs : mat) (targets : list Z) : option R :=
  dist <- pairwise_distance self inputs ;;
  ap_an <- hard_mining self dist targets ;;
  let dist_ap := fst ap_an in
  let dist_an := snd ap_an in
  let y := ones_like dist_an in
  let loss := MarginRankingLoss.construct (ranking_loss self) dist_an dist_ap y in
  nth_error loss 0.

End OriTripletLoss.

(** ** Helpers [addmm], [pdist_ms], [softmax_weights] *)

Definition addmm (dist : mat) (a b : R) (m1 m2 : mat) : mat :=
  let y1 := smul a dist in
  let y2 := matmul m1 m2 in
  let y2 := smul b y2 in
  let y := add y1 y2 in
  y.

Definition pdist_ms (emb1 emb2 : mat) : option mat :=
  let m := length emb1 in
  let n := length emb2 in
  let bc1 := BroadcastTo (m, n) in
  let bc2 := BroadcastTo (n, m) in
  emb1_pow <- bc1 (ReduceSum_keep (pow_ms emb1 2)) ;;
  emb2_pow <- option_map transpose (bc2 (ReduceSum_keep (pow_ms emb2 2))) ;;
  let dist_mtx := add emb1_pow emb2_pow in
  let dist_mtx := addmm dist_mtx 1 (-2) emb1 (transpose emb2) in
  let dist_mtx := clip_by_value dist_mtx 1e-12 1e7 in
  let output := sqrt_ms dist_mtx in
  Some output.

Definition softmax_weights (dist mask : mat) : mat :=
  let max_v := snd (ArgMaxWithValue_keep (mul dist mask)) in
  let diff := sub dist max_v in
  let tmp_z := ReduceSum_keep (mul (exp_ms diff) mask) in
  let tmp_z := sadd tmp_z 1e-6 in
  let tmp_w := div (mul (exp_ms diff) mask) tmp_z in
  tmp_w.

(** ** [class TripletLoss_WRT] *)

Module TripletLoss_WRT.

(** Lines 180-195 of [construct]: the softmax-weighted positive and negative
    distances of every anchor, [(furthest_positive, closest_negative)].  The
    rank-1 [targets] is broadcast as a tensor of one row; the source evaluates
    [bs(targets)] at each use, here it is bound once. *)
Definition soft_mining (dist_mat : mat) (targets : list Z) : option (vec * vec) :=
  let dist_mat_n := length dist_mat in
  let bs := BroadcastTo (dist_mat_n, dist_mat_n) in
  bs_targets <- bs [targets] ;;
  let is_pos := cast (equal bs_targets (transpose bs_targets)) in
  let is_neg := cast (notequal bs_targets (transpose bs_targets)) in
  let dist_ap := mul dist_mat is_pos in
  let dist_an := mul dist_mat is_neg in
  let weights_ap := softmax_weights dist_ap is_pos in
  let weights_an := softmax_weights (neg dist_an) is_neg in
  let furthest_positive := ReduceSum (mul dist_ap weights_ap) in
  let closest_negative := ReduceSum (mul dist_an weights_an) in
  Some (furthest_positive, closest_negative).

Definition construct (inputs : mat) (targets : list Z) : option R :=
  dist_mat <- pdist_ms inputs inputs ;;
  fp_cn <- soft_mining dist_mat targets ;;
  let furthest_positive := fst fp_cn in
  let closest_negative := snd fp_cn in
  let y := full (length furthest_positive) 1 in
  let loss := SoftMarginLoss (vsub closest_negative furthest_positive) y in
  Some loss.

End TripletLoss_WRT.

(** ** The helpers on float32

    [pdist_ms], [addmm] and [softmax_weights] once more, on binary32 values.
    Every operation rounds to nearest, ties to even, as IEEE 754 prescribes
    for [+], [-], [*], [/] and the square root.  [P.ReduceSum] and the dot
    products of [P.matmul] add from left to right, and [P.Maximum],
    [P.Minimum] are written with the comparison [<]; the statements below
    evaluate them on rows of equal entries and on finite values, where
    neither the order of the additions nor the treatment of NaN plays a part.
    [P.Pow()(., 2)] and [P.Exp] are parameters [pow2] and [fexp]. *)

Module Float32.

#[global] Instance Zero_f32 : Zero spec_float := S754_zero false.

Definition fadd : spec_float -> spec_float -> spec_float := SFadd 24 128.
Definition fsub : spec_float -> spec_float -> spec_float := SFsub 24 128.
Definition fmul : spec_float -> spec_float -> spec_float := SFmul 24 128.
Definition fdiv : spec_float -> spec_float -> spec_float := SFdiv 24 128.
Definition fsqrt : spec_float -> spec_float := SFsqrt 24 128.
Definition fmax (x y : spec_float) : spec_float := if SFltb x y then y else x.
Definition fmin (x y : spec_float) : spec_float := if SFltb y x then y else x.

(** A Python integer as a float32 scalar. *)
Definition of_Z (n : Z) : spec_float := binary_normalize 24 128 n 0 false.

(** The float32 values nearest to the literals [1e-6], [1e-12] and [1e7]. *)
Definition f1e_6 : spec_float := S754_finite false 8796093 (-43).
Definition f1e_12 : spec_float := S754_finite false 9223372 (-63).
Definition f1e7 : spec_float := S754_finite false 10000000 0.

(** The real number a finite float32 value stands for. *)
Definition F2R (x : spec_float) : R :=
  match x with
  | S754_finite s m e => IZR (cond_Zopp s (Zpos m)) * powerRZ 2 e
  | _ => 0
  end.

(** Sum and largest element of a row. *)
Definition fsum (v : list spec_float) : spec_float := fold_left fadd v zero.
Definition frmax (v : list spec_float) : spec_float :=
  match v with
  | [] => zero
  | x :: xs => fold_left fmax xs x
  end.

Definition dot (r c : list spec_float) : spec_float :=
  fsum (map (fun p => fmul (fst p) (snd p)) (combine r c)).

Definition matmul (a b : list (list spec_float)) : list (list spec_float) :=
  map (fun r => map (dot r) (transpose b)) a.

Definition addmm (dist : list (list spec_float)) (a b : Z)
    (m1 m2 : list (list spec_float)) : list (list spec_float) :=
  let y1 := map (map (fmul (of_Z a))) dist in
  let y2 := matmul m1 m2 in
  let y2 := map (map (fmul (of_Z b))) y2 in
  let y := ew2 fadd y1 y2 in
  y.

Definition pdist_ms (pow2 : spec_float -> spec_float)
    (emb1 emb2 : list (list spec_float)) : option (list (list spec_float)) :=
  let m := length emb1 in
  let n := length emb2 in
  let bc1 := BroadcastTo (m, n) in
  let bc2 := BroadcastTo (n, m) in
  emb1_pow <- bc1 (map (fun r => [fsum r]) (map (map pow2) emb1)) ;;
  emb2_pow <- option_map transpose
                (bc2 (map (fun r => [fsum r]) (map (map pow2) emb2))) ;;
  let dist_mtx := ew2 fadd emb1_pow emb2_pow in
  let dist_mtx := addmm dist_mtx 1 (-2) emb1 (transpose emb2) in
  let dist_mtx := map (map (fun v => fmax (fmin v f1e7) f1e_12)) dist_mtx in
  let output := map (map fsqrt) dist_mtx in
  Some output.

Definition softmax_weights (fexp : spec_float -> spec_float)
    (dist mask : list (list spec_float)) : list (list spec_float) :=
  let max_v := map (fun r => [frmax r]) (ew2 fmul dist mask) in
  let diff := ew2 fsub dist max_v in
  let tmp_z := map (fun r => [fsum r]) (ew2 fmul (map (map fexp) diff) mask) in
  let tmp_z := map (map (fun v => fadd v f1e_6)) tmp_z in
  let tmp_w := ew2 fdiv (ew2 fmul (map (map fexp) diff) mask) tmp_z in
  tmp_w.

End Float32.

(** Evaluates the real value of a float32 given by its sign, mantissa and exponent. *)
Ltac float_value :=
  unfold Float32.F2R, cond_Zopp;
  cbv [powerRZ Pos.to_nat Pos.iter_op Init.Nat.add];
  lra.

(** ** Reference formulas

    The formulas the tensor code is compared with, written on rows and
    entries. *)

(** Squared Euclidean norm of a row, and the squared distance of two rows by
    the expansion [|a|^2 + |b|^2 - 2 a.b]. *)
Definition sqnorm (x : vec) : R := sum (map (fun v => v ^ 2) x).
Definition sqdist (x y : vec) : R := sqnorm x + sqnorm y + -2 * dot x y.

(** Row [i] of a feature matrix. *)
Definition row (x : mat) (i : nat) : vec := nth i x [].

(** [addmm] as the specification words it: the product against the
    transpose of the last argument. *)
Definition spec_addmm (dist : mat) (a b : R) (m1 m2 : mat) : mat :=
  add (smul a dist) (smul b (matmul m1 (transpose m2))).

(** The hinge of the margin ranking loss on one triple of entries, and the
    loss as the specification words it: the mean of the hinges. *)
Definition hinge (margin in1 in2 y : R) : R := Rmax 0 (- (in1 - in2) * y + margin).

Definition spec_margin_ranking (margin : R) (input1 input2 y : vec) : R :=
  mean (map (fun p => hinge margin (fst (fst p)) (snd (fst p)) (snd p))
            (combine (combine input1 input2) y)).

(** The product of an entry with its own [>= 0] mask. *)
Definition relu (x : R) : R := x * b2r (if Rle_dec 0 x then true else false).

(** [v] is the greatest, respectively the least, of the values [f j] over the
    indices [j] that satisfy [P]. *)
Definition is_max_over (P : nat -> Prop) (f : nat -> R) (v : R) : Prop :=
  (exists j, P j /\ f j = v) /\ (forall j, P j -> f j <= v).

Definition is_min_over (P : nat -> Prop) (f : nat -> R) (v : R) : Prop :=
  (exists j, P j /\ f j = v) /\ (forall j, P j -> v <= f j).

(** Entries of the label masks of [OriTripletLoss.construct]. *)
Definition label (targets : list Z) (i : nat) : Z := nth i targets 0%Z.
Definition mask_pos_at (targets : list Z) (i j : nat) : R :=
  b2r (Z.eqb (label targets j) (label targets i)).
Definition mask_neg_at (targets : list Z) (i j : nat) : R :=
  b2r (negb (Z.eqb (label targets j) (label targets i))).

(** The masked expressions of the hard mining on the entries [d i j] of a
    distance matrix with [B] rows: [max_j (dist*mask_pos)] and
    [min_j (rowmax(dist*mask_neg)*mask_pos + dist)]. *)
Definition masked_max (B : nat) (d : nat -> nat -> R) (targets : list Z) (i : nat) : R :=
  rmax (tab B (fun j => d i j * mask_pos_at targets i j)).

Definition masked_min (B : nat) (d : nat -> nat -> R) (targets : list Z) (i : nat) : R :=
  rmin (tab B (fun j =>
    rmax (tab B (fun k => d i k * mask_neg_at targets i k)) * mask_pos_at targets i j
    + d i j)).

(** [x[pi]]: the rows of [x] taken in the order of the indices [pi]. *)
Definition permute_rows {A} (d : A) (pi : list nat) (x : list A) : list A :=
  map (fun k => nth k x d) pi.

(** The distance of two rows as the inline code of [OriTripletLoss.construct]
    computes it, and the loss on a batch given as the list of its
    (row, label) pairs: for every anchor [p] the masked maximum and minimum
    over the batch, then the mean of the hinges. *)
Definition ori_dist (x y : vec) : R := sqrt (clip 1e-12 100000000 (sqdist x y)).

Definition anchor_ap (L : list (vec * Z)) (p : vec * Z) : R :=
  rmax (map (fun q => ori_dist (fst p) (fst q) * b2r (Z.eqb (snd q) (snd p))) L).

Definition anchor_an (L : list (vec * Z)) (p : vec * Z) : R :=
  rmin (map (fun q =>
    rmax (map (fun q' =>
            ori_dist (fst p) (fst q') * b2r (negb (Z.eqb (snd q') (snd p)))) L)
    * b2r (Z.eqb (snd q) (snd p)) + ori_dist (fst p) (fst q)) L).

Definition triplet_loss (margin : R) (L : list (vec * Z)) : R :=
  mean (map (fun p => relu (- (anchor_an L p - anchor_ap L p) * 1 + margin)) L).

(** Label-smoothed cross entropy as the specification words it:
    [target = (1-eps)*onehot + eps/K] and
    [-mean_over_batch(sum_over_classes(target * log_softmax(logits)))]. *)
Definition log_softmax (x : vec) (k : nat) : R := nth k x 0 - ln (sum (map exp x)).

Definition smooth_target (eps : R) (K : nat) (lab : Z) (k : nat) : R :=
  (1 - eps) * b2r (Z.eqb (Z.of_nat k) lab) + eps / INR K.

Definition spec_cross_entropy (eps : R) (K : nat) (logits : mat) (labels : list Z) : R :=
  - mean (map (fun p =>
        sum (tab K (fun k => smooth_target eps K (snd p) k * log_softmax (fst p) k)))
      (combine logits labels)).

(** Example [i] of a batch is correctly classified: its label is a class
    index and that class attains the largest log-probability of the row. *)
Definition true_class (targets : list Z) (i : nat) : nat := Z.to_nat (label targets i).



(** Entry [(i, j)] of the intermediate [diff = dist - max_v] of
    [softmax_weights], on a distance matrix and a mask with [C] columns given
    by their entries. *)
Definition diff_at (C : nat) (d m : nat -> nat -> R) (i j : nat) : R :=
  d i j - rmax (tab C (fun j' => d i j' * m i j')).

(** Entry [(i, j)] of [softmax_weights] on a distance matrix and a mask with
    [C] columns given by their entries. *)
Definition weight (C : nat) (d m : nat -> nat -> R) (i j : nat) : R :=
  exp (d i j - rmax (tab C (fun j' => d i j' * m i j'))) * m i j
  / (sum (tab C (fun j' =>
       exp (d i j' - rmax (tab C (fun j'' => d i j'' * m i j''))) * m i j'))
     + 1e-6).

(** The distance of two rows as [pdist_ms] computes it. *)
Definition wrt_dist (x y : vec) : R := sqrt (clip 1e-12 1e7 (sqdist x y)).

(** The softmax-weighted distances of anchor [i] in [TripletLoss_WRT], on the
    entries [d i j] of a distance matrix with [B] rows. *)
Definition soft_positive (B : nat) (d : nat -> nat -> R) (targets : list Z) (i : nat) : R :=
  sum (tab B (fun j =>
    d i j * mask_pos_at targets i j
    * weight B (fun i j => d i j * mask_pos_at targets i j) (mask_pos_at targets) i j)).

Definition soft_negative (B : nat) (d : nat -> nat -> R) (targets : list Z) (i : nat) : R :=
  sum (tab B (fun j =>
    d i j * mask_neg_at targets i j
    * weight B (fun i j => - (d i j * mask_neg_at targets i j)) (mask_neg_at targets) i j)).

(** ** Facts about lists built by index *)

Lemma tab_length {A} (n : nat) (f : nat -> A) : length (tab n f) = n.
Proof. unfold tab. now rewrite length_map, length_seq. Qed.

Lemma nth_tab {A} (n i : nat) (f : nat -> A) (d : A) :
  (i < n)%nat -> nth i (tab n f) d = f i.
Proof.
  intros Hi. unfold tab.
  rewrite (nth_indep _ d (f 0%nat)) by now rewrite length_map, length_seq.
  rewrite map_nth, seq_nth; auto.
Qed.

Lemma tab_ext {A} (n : nat) (f g : nat -> A) :
  (forall i, (i < n)%nat -> f i = g i) -> tab n f = tab n g.
Proof.
  intros H. unfold tab. apply map_ext_in.
  intros i Hi. apply in_seq in Hi. apply H. lia.
Qed.

Lemma map_tab {A B} (n : nat) (f : nat -> A) (g : A -> B) :
  map g (tab n f) = tab n (fun i => g (f i)).
Proof. unfold tab. now rewrite map_map. Qed.

Lemma tab_map_nth {A B} (n : nat) (l : list A) (d : A) (g : A -> B) :
  length l = n -> tab n (fun i => g (nth i l d)) = map g l.
Proof.
  intros <-. apply nth_ext with (d := g d) (d' := g d).
  - now rewrite tab_length, length_map.
  - intros i Hi. rewrite tab_length in Hi.
    rewrite nth_tab by assumption. now rewrite map_nth.
Qed.

Lemma combine_tab {A B} (n : nat) (f : nat -> A) (g : nat -> B) :
  combine (tab n f) (tab n g) = tab n (fun i => (f i, g i)).
Proof.
  unfold tab. induction (seq 0 n) as [|i l IH]; simpl; [reflexivity|].
  now rewrite IH.
Qed.

Lemma repeat_tab {A} (n : nat) (a : A) : repeat a n = tab n (fun _ => a).
Proof.
  apply nth_ext with (d := a) (d' := a).
  - now rewrite repeat_length, tab_length.
  - intros i Hi. rewrite repeat_length in Hi.
    rewrite nth_repeat. now rewrite nth_tab.
Qed.

Lemma bcast2_same_length {A B C} (f : A -> B -> C) (x : list A) (y : list B) :
  length x = length y ->
  bcast2 f x y = map (fun p => f (fst p) (snd p)) (combine x y).
Proof.
  destruct x as [|a [|a' x]], y as [|b [|b' y]]; simpl; intros H;
    try discriminate; reflexivity.
Qed.

Lemma bcast2_tab {A B C} (f : A -> B -> C) (n : nat) (g : nat -> A) (h : nat -> B) :
  bcast2 f (tab n g) (tab n h) = tab n (fun i => f (g i) (h i)).
Proof.
  rewrite bcast2_same_length by now rewrite !tab_length.
  rewrite combine_tab. unfold tab. now rewrite map_map.
Qed.

Lemma bcast2_one_r {A B C} (f : A -> B -> C) (x : list A) (b : B) :
  bcast2 f x [b] = map (fun a => f a b) x.
Proof. destruct x as [|a [|a' x]]; reflexivity. Qed.

Lemma bcast2_one_l {A B C} (f : A -> B -> C) (a : A) (y : list B) :
  bcast2 f [a] y = map (f a) y.
Proof. reflexivity. Qed.

Lemma ew2_tab2 {A B C} (f : A -> B -> C) (m n : nat) (g : nat -> nat -> A) (h : nat -> nat -> B) :
  ew2 f (tab2 m n g) (tab2 m n h) = tab2 m n (fun i j => f (g i j) (h i j)).
Proof.
  unfold ew2, tab2. rewrite bcast2_tab. apply tab_ext. intros i _.
  apply bcast2_tab.
Qed.

(** A tensor of shape [(m, 1)] on the right is stretched along the rows. *)
Lemma ew2_tab2_col_r {A B C} (f : A -> B -> C) (m n : nat) (g : nat -> nat -> A) (c : nat -> B) :
  ew2 f (tab2 m n g) (tab m (fun i => [c i])) = tab2 m n (fun i j => f (g i j) (c i)).
Proof.
  unfold ew2, tab2. rewrite bcast2_tab. apply tab_ext. intros i _.
  rewrite bcast2_one_r. apply map_tab.
Qed.

(** A tensor of shape [(m, 1)] on the left is stretched along the rows. *)
Lemma ew2_tab2_col_l {A B C} (f : A -> B -> C) (m n : nat) (c : nat -> A) (h : nat -> nat -> B) :
  ew2 f (tab m (fun i => [c i])) (tab2 m n h) = tab2 m n (fun i j => f (c i) (h i j)).
Proof.
  unfold ew2, tab2. rewrite bcast2_tab. apply tab_ext. intros i _.
  rewrite bcast2_one_l. apply map_tab.
Qed.

Lemma map_tab2 {A B} (m n : nat) (f : nat -> nat -> A) (g : A -> B) :
  map (map g) (tab2 m n f) = tab2 m n (fun i j => g (f i j)).
Proof.
  unfold tab2. rewrite map_tab. apply tab_ext. intros i _. apply map_tab.
Qed.

Lemma tab2_ext {A} (m n : nat) (f g : nat -> nat -> A) :
  (forall i j, (i < m)%nat -> (j < n)%nat -> f i j = g i j) ->
  tab2 m n f = tab2 m n g.
Proof.
  intros H. unfold tab2. apply tab_ext. intros i Hi.
  apply tab_ext. intros j Hj. now apply H.
Qed.

Lemma at2_tab2 {A} `{Zero A} (m n i j : nat) (f : nat -> nat -> A) :
  (i < m)%nat -> (j < n)%nat -> at2 (tab2 m n f) i j = f i j.
Proof.
  intros Hi Hj. unfold at2, tab2.
  rewrite (nth_tab m i _ []) by assumption. now apply nth_tab.
Qed.

Lemma shape_tab2_intro {A} (m n : nat) (f : nat -> nat -> A) : shape m n (tab2 m n f).
Proof.
  split; [apply tab_length|].
  unfold tab2, tab. apply Forall_forall. intros r Hr.
  apply in_map_iff in Hr as (i & <- & _). apply tab_length.
Qed.

Lemma shape_row {A} (m n i : nat) (t : list (list A)) :
  shape m n t -> (i < m)%nat -> length (nth i t []) = n.
Proof.
  intros [Hm Hn] Hi. rewrite Forall_forall in Hn. apply Hn, nth_In. lia.
Qed.

(** A tensor of shape [(m, n)] is the table of its entries. *)
Lemma shape_tab2 {A} `{Zero A} (m n : nat) (t : list (list A)) :
  shape m n t -> t = tab2 m n (at2 t).
Proof.
  intros Hs. pose proof Hs as [Hm Hn].
  apply nth_ext with (d := []) (d' := []).
  - unfold tab2. now rewrite tab_length.
  - intros i Hi. rewrite Hm in Hi. unfold tab2.
    rewrite nth_tab by assumption.
    symmetry. unfold at2.
    rewrite (tab_map_nth n (nth i t []) zero (fun x => x)).
    + apply map_id.
    + eapply shape_row; eauto.
Qed.

Lemma ncols_tab2 {A} (m n : nat) (f : nat -> nat -> A) :
  (1 <= m)%nat -> ncols (tab2 m n f) = n.
Proof.
  intros Hm. destruct m as [|m]; [lia|].
  unfold ncols, tab2, tab. simpl. now rewrite length_map, length_seq.
Qed.

Lemma transpose_tab2 {A} `{Zero A} (m n : nat) (f : nat -> nat -> A) :
  (1 <= m)%nat \/ n = 0%nat ->
  transpose (tab2 m n f) = tab2 n m (fun j i => f i j).
Proof.
  intros Hmn. unfold transpose.
  assert (Hc : ncols (tab2 m n f) = n).
  { destruct Hmn as [Hm | ->]; [now apply ncols_tab2|].
    unfold ncols, tab2, tab. destruct m; reflexivity. }
  rewrite Hc. unfold tab2 at 2. apply tab_ext. intros j Hj.
  unfold tab2. rewrite map_tab. apply tab_ext. intros i Hi.
  now apply nth_tab.
Qed.

Lemma transpose_involutive {A} `{Zero A} (m n : nat) (t : list (list A)) :
  shape m n t -> (1 <= n)%nat -> transpose (transpose t) = t.
Proof.
  intros Hs Hn. rewrite (shape_tab2 m n t Hs) at 2.
  destruct m as [|m].
  - destruct Hs as [Hm _]. apply length_zero_iff_nil in Hm. now subst t.
  - rewrite (shape_tab2 (S m) n t Hs) at 1.
    rewrite transpose_tab2 by (left; lia).
    rewrite transpose_tab2 by (left; lia). reflexivity.
Qed.

(** ** Facts about sums, maxima and minima of rows *)

Lemma sum_map_plus {A} (f g : A -> R) (l : list A) :
  sum (map (fun i => f i + g i) l) = sum (map f l) + sum (map g l).
Proof. induction l as [|a l IH]; simpl; [lra|]. rewrite IH. lra. Qed.

Lemma sum_map_scal {A} (c : R) (f : A -> R) (l : list A) :
  sum (map (fun i => c * f i) l) = c * sum (map f l).
Proof. induction l as [|a l IH]; simpl; [lra|]. rewrite IH. lra. Qed.

Lemma sum_map_div {A} (c : R) (f : A -> R) (l : list A) :
  sum (map (fun i => f i / c) l) = sum (map f l) / c.
Proof.
  unfold Rdiv. induction l as [|a l IH]; simpl; [lra|]. rewrite IH. lra.
Qed.

Lemma sum_map_zero {A} (l : list A) : sum (map (fun _ => 0) l) = 0.
Proof. induction l as [|a l IH]; simpl; [reflexivity|]. rewrite IH. lra. Qed.

Lemma sum_map_swap {A B} (f : A -> B -> R) (la : list A) (lb : list B) :
  sum (map (fun a => sum (map (fun b => f a b) lb)) la) =
  sum (map (fun b => sum (map (fun a => f a b) la)) lb).
Proof.
  induction la as [|a la IH]; simpl.
  - now rewrite sum_map_zero.
  - rewrite IH. now rewrite <- sum_map_plus.
Qed.

Lemma sum_perm (l l' : list R) : Permutation l l' -> sum l = sum l'.
Proof. induction 1; simpl; lra. Qed.

Lemma sum_map_nonneg {A} (f : A -> R) (l : list A) :
  (forall a, In a l -> 0 <= f a) -> 0 <= sum (map f l).
Proof.
  induction l as [|a l IH]; simpl; intros H; [lra|].
  assert (0 <= f a) by (apply H; now left).
  assert (0 <= sum (map f l)) by (apply IH; intros; apply H; now right).
  lra.
Qed.

Lemma sum_map_pos {A} (f : A -> R) (l : list A) (a0 : A) :
  (forall a, In a l -> 0 <= f a) -> In a0 l -> 0 < f a0 -> 0 < sum (map f l).
Proof.
  induction l as [|a l IH]; simpl; intros H Hin Hpos; [contradiction|].
  assert (0 <= f a) by (apply H; now left).
  assert (0 <= sum (map f l)) by (apply sum_map_nonneg; intros; apply H; now right).
  destruct Hin as [-> | Hin]; [lra|].
  assert (0 < sum (map f l)) by (apply IH; auto). lra.
Qed.

Lemma rmax_In (v : vec) : v <> [] -> In (rmax v) v.
Proof.
  destruct v as [|x xs]; [congruence|]. intros _. simpl.
  induction xs as [|y ys IH]; simpl; [now left|].
  set (z := fold_right Rmax x ys) in *.
  destruct (Rle_dec y z).
  - rewrite (Rmax_right y z) by assumption.
    destruct IH as [IH | IH]; [now left | right; now right].
  - rewrite (Rmax_left y z) by lra. right; now left.
Qed.

Lemma rmax_ge (v : vec) (a : R) : In a v -> a <= rmax v.
Proof.
  destruct v as [|x xs]; [contradiction|]. simpl.
  induction xs as [|y ys IH]; simpl.
  - intros [-> | []]. lra.
  - intros [-> | [-> | Hin]].
    + eapply Rle_trans; [apply IH; now left | apply Rmax_r].
    + apply Rmax_l.
    + eapply Rle_trans; [apply IH; now right | apply Rmax_r].
Qed.

Lemma rmin_In (v : vec) : v <> [] -> In (rmin v) v.
Proof.
  destruct v as [|x xs]; [congruence|]. intros _. simpl.
  induction xs as [|y ys IH]; simpl; [now left|].
  set (z := fold_right Rmin x ys) in *.
  destruct (Rle_dec y z).
  - rewrite (Rmin_left y z) by assumption. right; now left.
  - rewrite (Rmin_right y z) by lra.
    destruct IH as [IH | IH]; [now left | right; now right].
Qed.

Lemma rmin_le (v : vec) (a : R) : In a v -> rmin v <= a.
Proof.
  destruct v as [|x xs]; [contradiction|]. simpl.
  induction xs as [|y ys IH]; simpl.
  - intros [-> | []]. lra.
  - intros [-> | [-> | Hin]].
    + eapply Rle_trans; [apply Rmin_r | apply IH; now left].
    + apply Rmin_l.
    + eapply Rle_trans; [apply Rmin_r | apply IH; now right].
Qed.

(** The maximum and the minimum of a row depend on its elements only. *)
Lemma rmax_perm (v v' : vec) : Permutation v v' -> rmax v = rmax v'.
Proof.
  intros HP. destruct v as [|x xs].
  - apply Permutation_nil in HP. now subst.
  - assert (Hv' : v' <> []).
    { intros ->. symmetry in HP. apply Permutation_nil in HP. discriminate. }
    apply Rle_antisym; apply rmax_ge.
    + eapply Permutation_in; [exact HP | apply rmax_In; discriminate].
    + eapply Permutation_in; [symmetry; exact HP | now apply rmax_In].
Qed.

Lemma rmin_perm (v v' : vec) : Permutation v v' -> rmin v = rmin v'.
Proof.
  intros HP. destruct v as [|x xs].
  - apply Permutation_nil in HP. now subst.
  - assert (Hv' : v' <> []).
    { intros ->. symmetry in HP. apply Permutation_nil in HP. discriminate. }
    apply Rle_antisym; apply rmin_le.
    + eapply Permutation_in; [symmetry; exact HP | now apply rmin_In].
    + eapply Permutation_in; [exact HP | apply rmin_In; discriminate].
Qed.

Lemma In_tab {A} (n : nat) (f : nat -> A) (a : A) :
  In a (tab n f) <-> exists i, (i < n)%nat /\ a = f i.
Proof.
  unfold tab. rewrite in_map_iff. split.
  - intros (i & <- & Hi). apply in_seq in Hi. exists i. split; [lia | reflexivity].
  - intros (i & Hi & ->). exists i. split; [reflexivity | apply in_seq; lia].
Qed.

Lemma dot_tab (k : nat) (a b : nat -> R) :
  dot (tab k a) (tab k b) = sum (tab k (fun l => a l * b l)).
Proof. unfold dot. rewrite combine_tab, map_tab. reflexivity. Qed.

Lemma dot_comm (x y : vec) : dot x y = dot y x.
Proof.
  unfold dot. revert y. induction x as [|a x IH]; destruct y as [|b y]; simpl; auto.
  rewrite IH. lra.
Qed.

(** ** Facts about [P.BroadcastTo] *)

Lemma opt_all_map_Some {A B} (f : A -> B) (l : list A) :
  opt_all (map (fun a => Some (f a)) l) = Some (map f l).
Proof. induction l as [|a l IH]; simpl; [reflexivity|]. now rewrite IH. Qed.

Lemma stretch_length {A} (n : nat) (l : list A) :
  length l = n -> stretch n l = Some l.
Proof.
  intros <-. destruct l as [|a [|b l]]; simpl; try reflexivity.
  now rewrite Nat.eqb_refl.
Qed.

(** A tensor of shape [(m, 1)] broadcast to [(m, n)]. *)
Lemma BroadcastTo_col {A} (m n : nat) (c : nat -> A) :
  BroadcastTo (m, n) (tab m (fun i => [c i])) = Some (tab2 m n (fun i _ => c i)).
Proof.
  unfold BroadcastTo. simpl. rewrite map_tab. simpl.
  unfold tab at 1. rewrite opt_all_map_Some.
  rewrite stretch_length by now rewrite length_map, length_seq.
  f_equal. unfold tab2. apply tab_ext. intros i _. apply repeat_tab.
Qed.

(** A tensor of one row of length [n] broadcast to [(m, n)]. *)
Lemma BroadcastTo_row {A} (m n : nat) (r : list A) :
  length r = n -> BroadcastTo (m, n) [r] = Some (tab m (fun _ => r)).
Proof.
  intros Hr. unfold BroadcastTo. simpl.
  rewrite stretch_length by assumption. simpl.
  f_equal. apply repeat_tab.
Qed.

(** ** The pairwise distance matrices *)

Lemma ReduceSum_keep_pow (B : nat) (x : mat) :
  length x = B ->
  ReduceSum_keep (pow_ms x 2) = tab B (fun i => [sqnorm (row x i)]).
Proof.
  intros HB. unfold ReduceSum_keep, pow_ms. rewrite map_map.
  symmetry. apply (tab_map_nth B x [] (fun r => [sum (map (fun v => v ^ 2) r)])).
  exact HB.
Qed.

Lemma matmul_transpose (m n k : nat) (a b : mat) :
  length a = m -> shape n k b -> (1 <= k)%nat ->
  matmul a (transpose b) = tab2 m n (fun i j => dot (row a i) (row b j)).
Proof.
  intros Ha Hb Hk. unfold matmul.
  rewrite (transpose_involutive n k b Hb Hk).
  transitivity (tab m (fun i => map (dot (row a i)) b)).
  - symmetry. apply (tab_map_nth m a [] (fun r => map (dot r) b) Ha).
  - unfold tab2. apply tab_ext. intros i _. symmetry.
    apply (tab_map_nth n b [] (dot (row a i))). apply Hb.
Qed.

Lemma pairwise_distance_spec (self : OriTripletLoss.t) (B D : nat) (inputs : mat) :
  shape B D inputs -> (1 <= D)%nat -> OriTripletLoss.batch_size self = B ->
  OriTripletLoss.pairwise_distance self inputs =
  Some (tab2 B B (fun i j =>
          sqrt (clip 1e-12 100000000 (sqdist (row inputs i) (row inputs j))))).
Proof.
  intros Hs HD Hbs. unfold OriTripletLoss.pairwise_distance, OriTripletLoss.expand.
  cbv zeta. rewrite Hbs.
  rewrite (ReduceSum_keep_pow B) by apply Hs.
  rewrite BroadcastTo_col.
  rewrite transpose_tab2 by lia.
  rewrite (matmul_transpose B B D) by (auto; apply Hs).
  unfold add, smul, clip_by_value, sqrt_ms.
  rewrite ew2_tab2, map_tab2, ew2_tab2, !map_tab2.
  reflexivity.
Qed.

Lemma pdist_ms_spec (m n D : nat) (emb1 emb2 : mat) :
  shape m D emb1 -> shape n D emb2 -> (1 <= D)%nat ->
  (1 <= n)%nat \/ m = 0%nat ->
  pdist_ms emb1 emb2 =
  Some (tab2 m n (fun i j =>
          sqrt (clip 1e-12 1e7 (sqdist (row emb1 i) (row emb2 j))))).
Proof.
  intros H1 H2 HD Hmn. unfold pdist_ms, addmm. cbv zeta.
  destruct H1 as [Hm H1], H2 as [Hn H2]. rewrite Hm, Hn.
  rewrite (ReduceSum_keep_pow m) by assumption.
  rewrite (ReduceSum_keep_pow n) by assumption.
  rewrite !BroadcastTo_col. cbn [option_map].
  rewrite transpose_tab2 by lia.
  rewrite (matmul_transpose m n D) by (auto; split; assumption).
  unfold add, smul, clip_by_value, sqrt_ms.
  rewrite ew2_tab2, !map_tab2, ew2_tab2, !map_tab2.
  f_equal. apply tab2_ext. intros i j _ _. unfold sqdist.
  f_equal. f_equal. lra.
Qed.

Lemma sqdist_comm (x y : vec) : sqdist x y = sqdist y x.
Proof. unfold sqdist. rewrite (dot_comm x y). lra. Qed.


Lemma clip_range (lo hi v : R) : lo <= hi -> lo <= clip lo hi v <= hi.
Proof.
  intros H. unfold clip. split; [apply Rmax_r|].
  apply Rmax_lub; [apply Rmin_r | exact H].
Qed.

Lemma matmul_tab2 (m n k : nat) (f g : nat -> nat -> R) :
  (1 <= k)%nat ->
  matmul (tab2 m k f) (tab2 k n g) =
  tab2 m n (fun i j => sum (tab k (fun l => f i l * g l j))).
Proof.
  intros Hk. unfold matmul. rewrite transpose_tab2 by (left; exact Hk).
  unfold tab2. rewrite map_tab. apply tab_ext. intros i _.
  rewrite map_tab. apply tab_ext. intros j _.
  apply dot_tab.
Qed.

(** ** [addmm] *)

(** C3, as the specification states it, fails: on square operands the code
    multiplies by [m2] itself, the stated formula by its transpose, and the
    entry in row 0, column 1 differs. *)
Lemma addmm_not_transposed :
  addmm [[0; 0]; [0; 0]] 1 1 [[1; 0]; [0; 1]] [[0; 1]; [0; 0]] <>
  spec_addmm [[0; 0]; [0; 0]] 1 1 [[1; 0]; [0; 1]] [[0; 1]; [0; 0]].
Proof.
  intros H. apply (f_equal (fun d => at2 d 0 1)) in H.
  cbv [addmm spec_addmm add smul matmul transpose ew2 bcast2 map combine dot
       sum fold_right tab seq ncols hd length nth at2 zero Zero_R fst snd] in H.
  lra.
Qed.

(** C3, amended: on conforming operands [addmm(dist, a, b, m1, m2)] is
    [a*dist + b*(m1 @ m2)], the product taken against the last argument as it
    is passed; with the transposed [emb2.T] that [pdist_ms] passes, the entry
    is the dot product of row [i] of [m1] and row [j] of [emb2]. *)
Theorem addmm_entries (m n k : nat) (dist m1 m2 : mat) (a b : R) :
  shape m n dist -> shape m k m1 -> shape k n m2 -> (1 <= k)%nat ->
  addmm dist a b m1 m2 =
    tab2 m n (fun i j =>
      a * at2 dist i j + b * sum (tab k (fun l => at2 m1 i l * at2 m2 l j))) /\
  (forall emb2, shape n k emb2 ->
     addmm dist a b m1 (transpose emb2) =
       tab2 m n (fun i j => a * at2 dist i j + b * dot (row m1 i) (row emb2 j))).
Proof.
  intros Hd H1 H2 Hk. split.
  - unfold addmm. cbv zeta.
    rewrite (shape_tab2 m n dist Hd) at 1.
    rewrite (shape_tab2 m k m1 H1) at 1.
    rewrite (shape_tab2 k n m2 H2) at 1.
    rewrite matmul_tab2 by exact Hk.
    unfold add, smul. rewrite !map_tab2, ew2_tab2. reflexivity.
  - intros emb2 He. unfold addmm. cbv zeta.
    rewrite (shape_tab2 m n dist Hd) at 1.
    rewrite (matmul_transpose m n k) by (auto; apply H1).
    unfold add, smul. rewrite !map_tab2, ew2_tab2. reflexivity.
Qed.

Lemma addmm_entries_witness :
  (shape 1 1 [[5]] /\ shape 1 2 [[1; 2]] /\ shape 2 1 [[3]; [4]] /\ (1 <= 2)%nat) /\
  addmm [[5]] 2 3 [[1; 2]] [[3]; [4]] =
    tab2 1 1 (fun i j =>
      2 * at2 [[5]] i j +
      3 * sum (tab 2 (fun l => at2 [[1; 2]] i l * at2 [[3]; [4]] l j))) /\
  (forall emb2, shape 1 2 emb2 ->
     addmm [[5]] 2 3 [[1; 2]] (transpose emb2) =
       tab2 1 1 (fun i j => 2 * at2 [[5]] i j + 3 * dot (row [[1; 2]] i) (row emb2 j))).
Proof.
  assert (Hd : shape 1 1 [[5]]) by (split; [reflexivity | repeat constructor]).
  assert (H1 : shape 1 2 [[1; 2]]) by (split; [reflexivity | repeat constructor]).
  assert (H2 : shape 2 1 [[3]; [4]]) by (split; [reflexivity | repeat constructor]).
  assert (Hk : (1 <= 2)%nat) by lia.
  split; [exact (conj Hd (conj H1 (conj H2 Hk)))|].
  exact (addmm_entries 1 1 2 [[5]] [[1; 2]] [[3]; [4]] 2 3 Hd H1 H2 Hk).
Defined.

(** ** [pdist_ms] and the inline distance of [OriTripletLoss.construct] *)

(** The constants of [Module Float32] are within half a unit in the last
    place of the literals [1e-6] and [1e-12] of the source, and [1e7] is a
    float32 value. *)
Lemma f1e_6_nearest : Rabs (Float32.F2R Float32.f1e_6 - 1e-6) <= / 2 ^ 44.
Proof.
  unfold Float32.F2R, Float32.f1e_6, cond_Zopp.
  cbv [powerRZ Pos.to_nat Pos.iter_op Init.Nat.add].
  apply Rabs_le. split; lra.
Qed.

Lemma f1e_12_nearest : Rabs (Float32.F2R Float32.f1e_12 - 1e-12) <= / 2 ^ 64.
Proof.
  unfold Float32.F2R, Float32.f1e_12, cond_Zopp.
  cbv [powerRZ Pos.to_nat Pos.iter_op Init.Nat.add].
  apply Rabs_le. split; lra.
Qed.

Lemma f1e7_exact : Float32.F2R Float32.f1e7 = 1e7.
Proof. unfold Float32.F2R, Float32.f1e7, cond_Zopp. cbv [powerRZ]. lra. Qed.

(** The one entry of [pdist_ms([[4097]], [[4097]])] on float32, for a [P.Pow]
    kernel that returns [16785410] as the square of [4097]: the squared norms
    add up to [33570820], the product of [P.matmul] is [16785408], and the
    norm expansion leaves [33570820 - 2 * 16785408 = 4]. *)
Lemma pdist_ms32_4097 (pow2 : spec_float -> spec_float) :
  pow2 (Float32.of_Z 4097) = Float32.of_Z 16785410 ->
  Float32.pdist_ms pow2 [[Float32.of_Z 4097]] [[Float32.of_Z 4097]] =
  Some [[Float32.of_Z 2]].
Proof.
  intros H. unfold Float32.pdist_ms. cbv zeta. cbn [map length].
  rewrite H. vm_compute. reflexivity.
Qed.

(** C6, as the specification states it, fails on float32.  The exact square
    of [4097] is [16785409], midway between the two float32 values
    [16785408] and [16785410].  The product of [P.matmul] rounds it to
    [16785408]; [P.Pow] is a kernel of its own, and when it returns the other
    nearest value the diagonal entry of [pdist_ms([[4097]], [[4097]])] is
    [2.0], not [sqrt(1e-12)]: the two halves of the norm expansion are rounded
    separately and need not cancel. *)
Lemma pdist_ms_diagonal_not_floor :
  let x := Float32.of_Z 4097 in
  Float32.F2R x * Float32.F2R x = 16785409 /\
  Float32.F2R (Float32.fmul x x) = 16785408 /\
  Float32.F2R (Float32.of_Z 16785410) = 16785410 /\
  (forall pow2, pow2 x = Float32.of_Z 16785410 ->
     Float32.pdist_ms pow2 [[x]] [[x]] = Some [[Float32.of_Z 2]]) /\
  Float32.F2R (Float32.of_Z 2) <> sqrt 1e-12.
Proof.
  cbv zeta.
  replace (Float32.fmul (Float32.of_Z 4097) (Float32.of_Z 4097))
    with (S754_finite false 8392704 1) by (vm_compute; reflexivity).
  replace (Float32.of_Z 4097) with (S754_finite false 8390656 (-11))
    by (vm_compute; reflexivity).
  replace (Float32.of_Z 16785410) with (S754_finite false 8392705 1)
    by (vm_compute; reflexivity).
  replace (Float32.of_Z 2) with (S754_finite false 8388608 (-22))
    by (vm_compute; reflexivity).
  split; [float_value|]. split; [float_value|]. split; [float_value|]. split.
  - intros pow2 H. apply (pdist_ms32_4097 pow2). exact H.
  - replace 1e-12 with (1e-6 * 1e-6) by lra. rewrite sqrt_square by lra.
    float_value.
Qed.

(** C6, amended: for every feature matrix [x], [pdist_ms(x, x)] is symmetric
    and all its entries, those of the diagonal and of identical rows
    included, lie between [sqrt(1e-12)], the square root of the clipping
    floor, and [sqrt(1e7)]. *)
Theorem pdist_ms_symmetric (B D : nat) (x : mat) :
  shape B D x -> (1 <= D)%nat ->
  exists d, pdist_ms x x = Some d /\ shape B B d /\
    (forall i j, (i < B)%nat -> (j < B)%nat -> at2 d i j = at2 d j i) /\
    (forall i j, (i < B)%nat -> (j < B)%nat ->
       sqrt 1e-12 <= at2 d i j <= sqrt 1e7).
Proof.
  intros Hs HD. eexists. split; [apply (pdist_ms_spec B B D); auto; lia|].
  split; [apply shape_tab2_intro|]. split.
  - intros i j Hi Hj. rewrite !at2_tab2 by assumption.
    now rewrite sqdist_comm.
  - intros i j Hi Hj. rewrite at2_tab2 by assumption.
    destruct (clip_range 1e-12 1e7 (sqdist (row x i) (row x j))) as [Hlo Hhi]; [lra|].
    split; apply sqrt_le_1_alt; assumption.
Qed.

Lemma pdist_ms_symmetric_witness :
  (shape 2 2 [[1; 2]; [3; 4]] /\ (1 <= 2)%nat) /\
  exists d, pdist_ms [[1; 2]; [3; 4]] [[1; 2]; [3; 4]] = Some d /\ shape 2 2 d /\
    (forall i j, (i < 2)%nat -> (j < 2)%nat -> at2 d i j = at2 d j i) /\
    (forall i j, (i < 2)%nat -> (j < 2)%nat ->
       sqrt 1e-12 <= at2 d i j <= sqrt 1e7).
Proof.
  assert (Hs : shape 2 2 [[1; 2]; [3; 4]]) by (split; [reflexivity | repeat constructor]).
  assert (HD : (1 <= 2)%nat) by lia.
  split; [split; assumption|].
  exact (pdist_ms_symmetric 2 2 [[1; 2]; [3; 4]] Hs HD).
Defined.




(** ** [MarginRankingLoss.construct] *)

Lemma tab_nth {A} (n : nat) (l : list A) (d : A) :
  length l = n -> l = tab n (fun i => nth i l d).
Proof.
  intros Hl. rewrite (tab_map_nth n l d (fun x => x) Hl). now rewrite map_id.
Qed.

Lemma relu_Rmax (x : R) : relu x = Rmax 0 x.
Proof.
  unfold relu, b2r. destruct (Rle_dec 0 x).
  - rewrite Rmax_right by assumption. lra.
  - rewrite Rmax_left by lra. lra.
Qed.

Lemma bcast2_map_r {A B C} (f : A -> B -> C) (g : A -> B) (l : list A) :
  bcast2 f l (map g l) = map (fun x => f x (g x)) l.
Proof.
  rewrite bcast2_same_length by now rewrite length_map.
  induction l as [|a l IH]; simpl; [reflexivity|]. now rewrite IH.
Qed.

Lemma MarginRankingLoss_tab (self : MarginRankingLoss.t) (n : nat) (a b y : nat -> R) :
  MarginRankingLoss.construct self (tab n a) (tab n b) (tab n y) =
  [mean (tab n (fun i => relu (- (a i - b i) * y i + MarginRankingLoss.margin self)))].
Proof.
  unfold MarginRankingLoss.construct, ReduceMean_keep, vneg, vsub, vmul, vsadd, vge, vcast.
  cbv zeta. rewrite bcast2_tab, map_tab, bcast2_tab, !map_tab, bcast2_tab. reflexivity.
Qed.

(** C5: for equal-shaped [input1], [input2] and [y] with entries [+1] or [-1],
    [MarginRankingLoss.construct] returns the mean over all elements of
    [max(0, -(input1-input2)*y + margin)]; the masked product
    [temp3 * (temp3 >= 0)] is [max(0, temp3)] elementwise. *)
Theorem MarginRankingLoss_hinge (self : MarginRankingLoss.t) (input1 input2 y : vec) :
  length input1 = length input2 -> length input1 = length y ->
  Forall (fun v => v = 1 \/ v = -1) y ->
  MarginRankingLoss.construct self input1 input2 y =
    [spec_margin_ranking (MarginRankingLoss.margin self) input1 input2 y] /\
  (forall temp3 : vec, vmul temp3 (vcast (vge temp3 0)) = map (Rmax 0) temp3).
Proof.
  intros H12 H1y _. split.
  - set (n := length input1).
    rewrite (tab_nth n input1 0) by reflexivity.
    rewrite (tab_nth n input2 0) by (symmetry; exact H12).
    rewrite (tab_nth n y 0) by (symmetry; exact H1y).
    rewrite MarginRankingLoss_tab. unfold spec_margin_ranking.
    rewrite !combine_tab, map_tab. cbn [fst snd]. f_equal. f_equal.
    apply tab_ext. intros i _. apply relu_Rmax.
  - intros temp3. unfold vmul, vcast, vge. rewrite map_map.
    rewrite bcast2_map_r. apply map_ext. intros x. apply relu_Rmax.
Qed.

Lemma MarginRankingLoss_hinge_witness :
  (length [1; 2] = length [3; 1] /\ length [1; 2] = length [1; -1] /\
   Forall (fun v => v = 1 \/ v = -1) [1; -1]) /\
  MarginRankingLoss.construct (MarginRankingLoss.init 0.3) [1; 2] [3; 1] [1; -1] =
    [spec_margin_ranking (MarginRankingLoss.margin (MarginRankingLoss.init 0.3))
       [1; 2] [3; 1] [1; -1]] /\
  (forall temp3 : vec, vmul temp3 (vcast (vge temp3 0)) = map (Rmax 0) temp3).
Proof.
  assert (H12 : length [1; 2] = length [3; 1]) by reflexivity.
  assert (H1y : length [1; 2] = length [1; -1]) by reflexivity.
  assert (Hy : Forall (fun v => v = 1 \/ v = -1) [1; -1]).
  { constructor; [left; reflexivity|]. constructor; [right; reflexivity|]. constructor. }
  split; [exact (conj H12 (conj H1y Hy))|].
  exact (MarginRankingLoss_hinge (MarginRankingLoss.init 0.3) [1; 2] [3; 1] [1; -1] H12 H1y Hy).
Defined.

(** ** [OriTripletLoss.construct]: hard mining *)

Lemma squeeze_col (m : nat) (c : nat -> R) :
  squeeze (tab m (fun i => [c i])) = tab m c.
Proof.
  unfold squeeze, tab. induction (seq 0 m) as [|i l IH]; simpl; [reflexivity|].
  now rewrite IH.
Qed.

Lemma ReduceMax_keep_tab2 (m n : nat) (f : nat -> nat -> R) :
  ReduceMax_keep (tab2 m n f) = tab m (fun i => [rmax (tab n (f i))]).
Proof. unfold ReduceMax_keep, tab2. apply map_tab. Qed.

Lemma ReduceMin_keep_tab2 (m n : nat) (f : nat -> nat -> R) :
  ReduceMin_keep (tab2 m n f) = tab m (fun i => [rmin (tab n (f i))]).
Proof. unfold ReduceMin_keep, tab2. apply map_tab. Qed.

Lemma hard_mining_spec (self : OriTripletLoss.t) (B : nat)
    (d : nat -> nat -> R) (targets : list Z) :
  length targets = B -> OriTripletLoss.batch_size self = B ->
  OriTripletLoss.hard_mining self (tab2 B B d) targets =
  Some (tab B (masked_max B d targets), tab B (masked_min B d targets)).
Proof.
  intros Ht Hbs. unfold OriTripletLoss.hard_mining, OriTripletLoss.expand.
  cbv zeta. rewrite Hbs.
  rewrite (BroadcastTo_row B B targets Ht).
  assert (HT : tab B (fun _ : nat => targets) = tab2 B B (fun _ j => label targets j)).
  { unfold tab2. apply tab_ext. intros i _. apply tab_nth, Ht. }
  rewrite HT. rewrite transpose_tab2 by lia.
  unfold equal, notequal, cast, mul, add.
  rewrite !ew2_tab2, !map_tab2, !ew2_tab2.
  rewrite !ReduceMax_keep_tab2, ew2_tab2_col_l, ew2_tab2, ReduceMin_keep_tab2.
  rewrite !squeeze_col. reflexivity.
Qed.

Lemma mask_pos_at_1 (targets : list Z) (i j : nat) :
  label targets j = label targets i -> mask_pos_at targets i j = 1.
Proof. intros E. unfold mask_pos_at. rewrite E, Z.eqb_refl. reflexivity. Qed.

Lemma mask_pos_at_0 (targets : list Z) (i j : nat) :
  label targets j <> label targets i -> mask_pos_at targets i j = 0.
Proof.
  intros E. unfold mask_pos_at. apply Z.eqb_neq in E. now rewrite E.
Qed.

Lemma mask_neg_at_1 (targets : list Z) (i j : nat) :
  label targets j <> label targets i -> mask_neg_at targets i j = 1.
Proof.
  intros E. unfold mask_neg_at. apply Z.eqb_neq in E. now rewrite E.
Qed.

Lemma mask_neg_at_0 (targets : list Z) (i j : nat) :
  label targets j = label targets i -> mask_neg_at targets i j = 0.
Proof. intros E. unfold mask_neg_at. rewrite E, Z.eqb_refl. reflexivity. Qed.

(** On positive distances the masked maximum is the largest distance to a
    sample of the same label. *)
Lemma masked_max_is_max (B : nat) (d : nat -> nat -> R) (targets : list Z) (i : nat) :
  (i < B)%nat -> (forall j, (j < B)%nat -> 0 < d i j) ->
  is_max_over (fun j => (j < B)%nat /\ label targets j = label targets i)
              (d i) (masked_max B d targets i).
Proof.
  intros Hi Hpos. unfold masked_max.
  set (row_i := tab B (fun j => d i j * mask_pos_at targets i j)).
  assert (Hne : row_i <> []).
  { intros E. apply (f_equal (@length R)) in E. unfold row_i in E.
    rewrite tab_length in E. simpl in E. lia. }
  assert (Hii : d i i <= rmax row_i).
  { apply rmax_ge. apply In_tab. exists i. split; [assumption|].
    rewrite mask_pos_at_1 by reflexivity. lra. }
  split.
  - destruct (proj1 (In_tab _ _ _) (rmax_In row_i Hne)) as (j & Hj & Ej).
    exists j. destruct (Z.eq_dec (label targets j) (label targets i)) as [E | E].
    + split; [split; assumption|]. rewrite Ej, mask_pos_at_1 by assumption. lra.
    + exfalso. rewrite mask_pos_at_0 in Ej by assumption.
      specialize (Hpos i Hi). lra.
  - intros j [Hj E]. apply Rle_trans with (d i j * mask_pos_at targets i j).
    + rewrite mask_pos_at_1 by assumption. lra.
    + apply rmax_ge. apply In_tab. exists j. split; [assumption | reflexivity].
Qed.

(** On positive distances, for an anchor with a sample of another label, the
    masked minimum is the smallest distance to a sample of another label. *)
Lemma masked_min_is_min (B : nat) (d : nat -> nat -> R) (targets : list Z) (i : nat) :
  (i < B)%nat -> (forall j, (j < B)%nat -> 0 < d i j) ->
  (exists j, (j < B)%nat /\ label targets j <> label targets i) ->
  is_min_over (fun j => (j < B)%nat /\ label targets j <> label targets i)
              (d i) (masked_min B d targets i).
Proof.
  intros Hi Hpos (j0 & Hj0 & E0). unfold masked_min.
  set (M := rmax (tab B (fun k => d i k * mask_neg_at targets i k))).
  set (row_i := tab B (fun j => M * mask_pos_at targets i j + d i j)).
  assert (HM : forall j, (j < B)%nat -> label targets j <> label targets i -> d i j <= M).
  { intros j Hj E. apply Rle_trans with (d i j * mask_neg_at targets i j).
    - rewrite mask_neg_at_1 by assumption. lra.
    - apply rmax_ge. apply In_tab. exists j. split; [assumption | reflexivity]. }
  assert (Hne : row_i <> []).
  { intros E. apply (f_equal (@length R)) in E. unfold row_i in E.
    rewrite tab_length in E. simpl in E. lia. }
  assert (Hneg : forall j, (j < B)%nat -> label targets j <> label targets i ->
                 rmin row_i <= d i j).
  { intros j Hj E. apply Rle_trans with (M * mask_pos_at targets i j + d i j).
    - apply rmin_le. apply In_tab. exists j. split; [assumption | reflexivity].
    - rewrite mask_pos_at_0 by assumption. lra. }
  split.
  - destruct (proj1 (In_tab _ _ _) (rmin_In row_i Hne)) as (j & Hj & Ej).
    exists j. destruct (Z.eq_dec (label targets j) (label targets i)) as [E | E].
    + exfalso. rewrite mask_pos_at_1 in Ej by assumption.
      specialize (Hpos j Hj). specialize (HM j0 Hj0 E0).
      specialize (Hneg j0 Hj0 E0). lra.
    + split; [split; assumption|]. rewrite Ej, mask_pos_at_0 by assumption. lra.
  - intros j [Hj E]. now apply Hneg.
Qed.

Lemma sqrt_clip_pos (hi v : R) : 1e-12 <= hi -> 0 < sqrt (clip 1e-12 hi v).
Proof.
  intros Hhi. apply sqrt_lt_R0. unfold clip.
  apply Rlt_le_trans with 1e-12; [lra | apply Rmax_r].
Qed.

(** C1: for inputs of shape [(batch_size, feat_dim)] and labels of shape
    [(batch_size)] in which every anchor has a sample of another label,
    [OriTripletLoss.construct] computes, for every anchor [i], [dist_ap[i]]
    as the maximum of the clipped distance [dist[i][j]] over the [j] with
    [targets[j] = targets[i]], and [dist_an[i]] as the minimum of
    [dist[i][j]] over the [j] with [targets[j] <> targets[i]], the latter
    being the masked expression
    [min_j (rowmax(dist*mask_neg)*mask_pos + dist)]. *)
Theorem hard_mining_hardest (self : OriTripletLoss.t) (B D : nat)
    (inputs : mat) (targets : list Z) :
  shape B D inputs -> (1 <= D)%nat -> length targets = B ->
  OriTripletLoss.batch_size self = B ->
  (forall i, (i < B)%nat ->
     exists j, (j < B)%nat /\ label targets j <> label targets i) ->
  exists dist dist_ap dist_an,
    OriTripletLoss.pairwise_distance self inputs = Some dist /\
    OriTripletLoss.hard_mining self dist targets = Some (dist_ap, dist_an) /\
    length dist_ap = B /\ length dist_an = B /\
    forall i, (i < B)%nat ->
      is_max_over (fun j => (j < B)%nat /\ label targets j = label targets i)
                  (at2 dist i) (nth i dist_ap 0) /\
      is_min_over (fun j => (j < B)%nat /\ label targets j <> label targets i)
                  (at2 dist i) (nth i dist_an 0) /\
      nth i dist_an 0 = masked_min B (at2 dist) targets i.
Proof.
  intros Hs HD Ht Hbs Hother.
  set (d := fun i j => sqrt (clip 1e-12 100000000 (sqdist (row inputs i) (row inputs j)))).
  assert (Hpos : forall i j, 0 < d i j).
  { intros i j. unfold d. apply sqrt_clip_pos. lra. }
  exists (tab2 B B d), (tab B (masked_max B d targets)), (tab B (masked_min B d targets)).
  split; [apply (pairwise_distance_spec self B D); assumption|].
  split; [apply hard_mining_spec; assumption|].
  split; [apply tab_length|]. split; [apply tab_length|].
  intros i Hi. rewrite !nth_tab by assumption.
  assert (Emin : masked_min B (at2 (tab2 B B d)) targets i = masked_min B d targets i).
  { unfold masked_min. f_equal. apply tab_ext. intros j Hj.
    rewrite at2_tab2 by assumption. f_equal. f_equal. f_equal.
    apply tab_ext. intros k Hk. now rewrite at2_tab2. }
  split; [|split].
  - destruct (masked_max_is_max B d targets i Hi (fun j _ => Hpos i j)) as [(j & Hj & Ej) Hub].
    split.
    + exists j. split; [assumption|]. rewrite at2_tab2 by (auto; apply Hj). exact Ej.
    + intros k Hk. rewrite at2_tab2 by (auto; apply Hk). now apply Hub.
  - destruct (masked_min_is_min B d targets i Hi (fun j _ => Hpos i j) (Hother i Hi))
      as [(j & Hj & Ej) Hlb].
    split.
    + exists j. split; [assumption|]. rewrite at2_tab2 by (auto; apply Hj). exact Ej.
    + intros k Hk. rewrite at2_tab2 by (auto; apply Hk). now apply Hlb.
  - symmetry. exact Emin.
Qed.

Lemma hard_mining_hardest_witness :
  (shape 2 1 [[0]; [3]] /\ (1 <= 1)%nat /\ length [1%Z; 2%Z] = 2%nat /\
   OriTripletLoss.batch_size (OriTripletLoss.init 0.3 2) = 2%nat /\
   (forall i, (i < 2)%nat ->
      exists j, (j < 2)%nat /\ label [1%Z; 2%Z] j <> label [1%Z; 2%Z] i)) /\
  exists dist dist_ap dist_an,
    OriTripletLoss.pairwise_distance (OriTripletLoss.init 0.3 2) [[0]; [3]] = Some dist /\
    OriTripletLoss.hard_mining (OriTripletLoss.init 0.3 2) dist [1%Z; 2%Z] =
      Some (dist_ap, dist_an) /\
    length dist_ap = 2%nat /\ length dist_an = 2%nat /\
    forall i, (i < 2)%nat ->
      is_max_over (fun j => (j < 2)%nat /\ label [1%Z; 2%Z] j = label [1%Z; 2%Z] i)
                  (at2 dist i) (nth i dist_ap 0) /\
      is_min_over (fun j => (j < 2)%nat /\ label [1%Z; 2%Z] j <> label [1%Z; 2%Z] i)
                  (at2 dist i) (nth i dist_an 0) /\
      nth i dist_an 0 = masked_min 2 (at2 dist) [1%Z; 2%Z] i.
Proof.
  assert (Hs : shape 2 1 [[0]; [3]]) by (split; [reflexivity | repeat constructor]).
  assert (HD : (1 <= 1)%nat) by lia.
  assert (Ht : length [1%Z; 2%Z] = 2%nat) by reflexivity.
  assert (Hbs : OriTripletLoss.batch_size (OriTripletLoss.init 0.3 2) = 2%nat) by reflexivity.
  assert (Ho : forall i, (i < 2)%nat ->
            exists j, (j < 2)%nat /\ label [1%Z; 2%Z] j <> label [1%Z; 2%Z] i).
  { intros i Hi. destruct i as [|[|i]]; [exists 1%nat | exists 0%nat | lia];
      (split; [lia | discriminate]). }
  split; [exact (conj Hs (conj HD (conj Ht (conj Hbs Ho))))|].
  exact (hard_mining_hardest _ 2 1 [[0]; [3]] [1%Z; 2%Z] Hs HD Ht Hbs Ho).
Defined.

(** ** [OriTripletLoss.construct]: the loss *)

Lemma construct_tab (self : OriTripletLoss.t) (B D : nat) (inputs : mat) (targets : list Z) :
  shape B D inputs -> (1 <= D)%nat -> length targets = B ->
  OriTripletLoss.batch_size self = B ->
  OriTripletLoss.construct self inputs targets =
  Some (mean (tab B (fun i =>
    relu (- (masked_min B (fun i j => ori_dist (row inputs i) (row inputs j)) targets i
             - masked_max B (fun i j => ori_dist (row inputs i) (row inputs j)) targets i) * 1
          + OriTripletLoss.margin self)))).
Proof.
  intros Hs HD Ht Hbs. unfold OriTripletLoss.construct.
  rewrite (pairwise_distance_spec self B D) by assumption.
  fold ori_dist.
  change (fun i j => sqrt (clip 1e-12 100000000 (sqdist (row inputs i) (row inputs j))))
    with (fun i j => ori_dist (row inputs i) (row inputs j)).
  rewrite hard_mining_spec by assumption.
  cbv zeta. cbn [fst snd]. unfold ones_like. rewrite map_tab.
  rewrite MarginRankingLoss_tab. reflexivity.
Qed.

Lemma nth_batch (inputs : mat) (targets : list Z) (i : nat) :
  length inputs = length targets ->
  nth i (combine inputs targets) ([], 0%Z) = (row inputs i, label targets i).
Proof. intros H. now apply combine_nth. Qed.

Lemma construct_triplet_loss (self : OriTripletLoss.t) (B D : nat)
    (inputs : mat) (targets : list Z) :
  shape B D inputs -> (1 <= D)%nat -> length targets = B ->
  OriTripletLoss.batch_size self = B ->
  OriTripletLoss.construct self inputs targets =
  Some (triplet_loss (OriTripletLoss.margin self) (combine inputs targets)).
Proof.
  intros Hs HD Ht Hbs. rewrite (construct_tab self B D) by assumption.
  assert (Hlen : length inputs = length targets) by (destruct Hs; congruence).
  assert (HL : length (combine inputs targets) = B).
  { rewrite length_combine. destruct Hs. lia. }
  set (L := combine inputs targets) in *.
  unfold triplet_loss. f_equal. f_equal.
  rewrite <- (tab_map_nth B L ([], 0%Z)) by exact HL.
  apply tab_ext. intros i _. unfold L. rewrite nth_batch by exact Hlen. fold L.
  set (d := fun i j => ori_dist (row inputs i) (row inputs j)).
  assert (Ean : masked_min B d targets i = anchor_an L (row inputs i, label targets i)).
  { unfold masked_min, anchor_an. cbn [fst snd]. f_equal.
    rewrite <- (tab_map_nth B L ([], 0%Z)) by exact HL.
    apply tab_ext. intros j _. unfold L. rewrite nth_batch by exact Hlen. fold L.
    cbn [fst snd]. f_equal. f_equal. f_equal.
    rewrite <- (tab_map_nth B L ([], 0%Z)) by exact HL.
    apply tab_ext. intros k _. unfold L. rewrite nth_batch by exact Hlen.
    reflexivity. }
  assert (Eap : masked_max B d targets i = anchor_ap L (row inputs i, label targets i)).
  { unfold masked_max, anchor_ap. cbn [fst snd]. f_equal.
    rewrite <- (tab_map_nth B L ([], 0%Z)) by exact HL.
    apply tab_ext. intros j _. unfold L. rewrite nth_batch by exact Hlen.
    reflexivity. }
  now rewrite Ean, Eap.
Qed.

(** The loss depends on the batch as a multiset of (row, label) pairs. *)
Lemma anchor_ap_perm (L L' : list (vec * Z)) (p : vec * Z) :
  Permutation L L' -> anchor_ap L p = anchor_ap L' p.
Proof. intros HP. unfold anchor_ap. apply rmax_perm. now apply Permutation_map. Qed.

Lemma anchor_an_perm (L L' : list (vec * Z)) (p : vec * Z) :
  Permutation L L' -> anchor_an L p = anchor_an L' p.
Proof.
  intros HP. unfold anchor_an.
  rewrite (rmax_perm
    (map (fun q' => ori_dist (fst p) (fst q') * b2r (negb (Z.eqb (snd q') (snd p)))) L)
    (map (fun q' => ori_dist (fst p) (fst q') * b2r (negb (Z.eqb (snd q') (snd p)))) L'))
    by now apply Permutation_map.
  apply rmin_perm. now apply Permutation_map.
Qed.

Lemma triplet_loss_perm (margin : R) (L L' : list (vec * Z)) :
  Permutation L L' -> triplet_loss margin L = triplet_loss margin L'.
Proof.
  intros HP. unfold triplet_loss, mean. rewrite !length_map.
  rewrite (Permutation_length HP). f_equal.
  transitivity
    (sum (map (fun p => relu (- (anchor_an L' p - anchor_ap L' p) * 1 + margin)) L)).
  - f_equal. apply map_ext. intros p.
    now rewrite (anchor_an_perm L L' p HP), (anchor_ap_perm L L' p HP).
  - apply sum_perm. now apply Permutation_map.
Qed.

Lemma combine_map {A B C} (f : A -> B) (g : A -> C) (l : list A) :
  combine (map f l) (map g l) = map (fun a => (f a, g a)) l.
Proof. induction l as [|a l IH]; simpl; [reflexivity|]. now rewrite IH. Qed.

Lemma permute_rows_id {A} (d : A) (B : nat) (pi : list nat) (x : list A) :
  length x = B -> length pi = B ->
  (forall i, (i < B)%nat -> nth (nth i pi 0%nat) x d = nth i x d) ->
  permute_rows d pi x = x.
Proof.
  intros Hx Hpi H. unfold permute_rows.
  apply nth_ext with (d := d) (d' := d).
  - rewrite length_map. congruence.
  - intros i Hi. rewrite length_map, Hpi in Hi.
    rewrite (nth_indep _ d ((fun k => nth k x d) 0%nat)) by (rewrite length_map; lia).
    rewrite (map_nth (fun k => nth k x d)). now apply H.
Qed.

Lemma permute_rows_perm {A} (d : A) (B : nat) (pi : list nat) (x : list A) :
  length x = B -> Permutation pi (seq 0 B) -> Permutation (permute_rows d pi x) x.
Proof.
  intros Hx HP. unfold permute_rows.
  assert (E : map (fun k => nth k x d) (seq 0 B) = x).
  { symmetry. apply (tab_nth B x d Hx). }
  eapply Permutation_trans; [apply Permutation_map; exact HP|].
  rewrite E. apply Permutation_refl.
Qed.

Lemma permute_rows_shape (B D : nat) (pi : list nat) (x : mat) :
  shape B D x -> Permutation pi (seq 0 B) -> shape B D (permute_rows [] pi x).
Proof.
  intros Hs HP. split.
  - unfold permute_rows. rewrite length_map.
    rewrite (Permutation_length HP). apply length_seq.
  - apply Forall_forall. intros r Hr. unfold permute_rows in Hr.
    apply in_map_iff in Hr as (k & <- & Hk).
    apply (Permutation_in _ HP) in Hk. apply in_seq in Hk.
    apply (shape_row B D k x Hs). lia.
Qed.

(** C8: for a permutation [pi] of the batch indices that moves samples only
    between positions of equal labels, [OriTripletLoss.construct] on the
    row-permuted inputs and the same targets returns the same loss as on the
    original inputs; on a batch of at least two samples it does return a
    loss. *)
Theorem construct_permutation_invariant (self : OriTripletLoss.t) (B D : nat)
    (inputs : mat) (targets : list Z) (pi : list nat) :
  shape B D inputs -> (1 <= D)%nat -> length targets = B ->
  OriTripletLoss.batch_size self = B ->
  Permutation pi (seq 0 B) ->
  (forall i, (i < B)%nat -> label targets (nth i pi 0%nat) = label targets i) ->
  OriTripletLoss.construct self (permute_rows [] pi inputs) targets =
    OriTripletLoss.construct self inputs targets /\
  ((2 <= B)%nat ->
   exists loss, OriTripletLoss.construct self inputs targets = Some loss).
Proof.
  intros Hs HD Ht Hbs HP Hlab.
  rewrite (construct_triplet_loss self B D inputs) by assumption.
  split; [|intros _; eexists; reflexivity].
  rewrite (construct_triplet_loss self B D)
    by (auto using permute_rows_shape).
  f_equal. apply triplet_loss_perm.
  assert (Hpi : length pi = B).
  { rewrite (Permutation_length HP). apply length_seq. }
  assert (Hx : length inputs = B) by apply Hs.
  rewrite <- (permute_rows_id 0%Z B pi targets Ht Hpi Hlab) at 1.
  unfold permute_rows. rewrite combine_map.
  assert (HL : length (combine inputs targets) = B).
  { rewrite length_combine. lia. }
  rewrite (map_ext (fun k => (nth k inputs [], nth k targets 0%Z))
                   (fun k => nth k (combine inputs targets) ([], 0%Z))).
  - exact (permute_rows_perm ([], 0%Z) B pi (combine inputs targets) HL HP).
  - intros k. symmetry. apply combine_nth. congruence.
Qed.

Lemma construct_permutation_invariant_witness :
  (shape 3 1 [[0]; [3]; [7]] /\ (1 <= 1)%nat /\ length [1%Z; 2%Z; 1%Z] = 3%nat /\
   OriTripletLoss.batch_size (OriTripletLoss.init 0.3 3) = 3%nat /\
   Permutation [2; 1; 0]%nat (seq 0 3) /\
   (forall i, (i < 3)%nat ->
      label [1%Z; 2%Z; 1%Z] (nth i [2; 1; 0]%nat 0%nat) = label [1%Z; 2%Z; 1%Z] i)) /\
  OriTripletLoss.construct (OriTripletLoss.init 0.3 3)
    (permute_rows [] [2; 1; 0]%nat [[0]; [3]; [7]]) [1%Z; 2%Z; 1%Z] =
  OriTripletLoss.construct (OriTripletLoss.init 0.3 3) [[0]; [3]; [7]] [1%Z; 2%Z; 1%Z] /\
  ((2 <= 3)%nat ->
   exists loss,
     OriTripletLoss.construct (OriTripletLoss.init 0.3 3) [[0]; [3]; [7]] [1%Z; 2%Z; 1%Z]
     = Some loss).
Proof.
  assert (Hs : shape 3 1 [[0]; [3]; [7]]) by (split; [reflexivity | repeat constructor]).
  assert (HD : (1 <= 1)%nat) by lia.
  assert (Ht : length [1%Z; 2%Z; 1%Z] = 3%nat) by reflexivity.
  assert (Hbs : OriTripletLoss.batch_size (OriTripletLoss.init 0.3 3) = 3%nat) by reflexivity.
  assert (HP : Permutation [2; 1; 0]%nat (seq 0 3)).
  { simpl. apply Permutation_trans with [1; 2; 0]%nat; [apply perm_swap|].
    apply Permutation_trans with [1; 0; 2]%nat; [apply perm_skip, perm_swap|].
    apply perm_swap. }
  assert (Hl : forall i, (i < 3)%nat ->
    label [1%Z; 2%Z; 1%Z] (nth i [2; 1; 0]%nat 0%nat) = label [1%Z; 2%Z; 1%Z] i).
  { intros i Hi. destruct i as [|[|[|i]]]; [reflexivity | reflexivity | reflexivity | lia]. }
  split; [exact (conj Hs (conj HD (conj Ht (conj Hbs (conj HP Hl)))))|].
  exact (construct_permutation_invariant _ 3 1 [[0]; [3]; [7]] [1%Z; 2%Z; 1%Z]
           [2; 1; 0]%nat Hs HD Ht Hbs HP Hl).
Defined.

(** ** [CrossEntropyLoss.construct] *)

Lemma LogSoftmax_tab2 (B K : nat) (inputs : mat) :
  shape B K inputs ->
  LogSoftmax inputs = tab2 B K (fun i k => log_softmax (row inputs i) k).
Proof.
  intros Hs. unfold LogSoftmax, tab2.
  rewrite <- (tab_map_nth B inputs [] _ (proj1 Hs)).
  apply tab_ext. intros i Hi. fold (row inputs i).
  rewrite <- (tab_map_nth K (row inputs i) 0) by (eapply shape_row; eauto).
  reflexivity.
Qed.

Lemma OneHot_tab2 (B K : nat) (targets : list Z) :
  length targets = B ->
  OneHot K targets = tab2 B K (fun i k => b2r (Z.eqb (Z.of_nat k) (label targets i))).
Proof.
  intros Ht. unfold OneHot, tab2.
  now rewrite <- (tab_map_nth B targets 0%Z _ Ht).
Qed.

Lemma sum_map_opp {A} (f : A -> R) (l : list A) :
  sum (map (fun i => - f i) l) = - sum (map f l).
Proof. induction l as [|a l IH]; simpl; [lra|]. rewrite IH. lra. Qed.

(** [t.mean(0).sum()] is the mean over the rows of the row sums. *)
Lemma sum_mean_axis0 (B K : nat) (f : nat -> nat -> R) :
  sum (mean_axis0 (tab2 B K f)) = mean (tab B (fun i => sum (tab K (f i)))).
Proof.
  destruct (Nat.eq_dec B 0) as [-> | HB].
  - unfold mean_axis0, mean. simpl. unfold Rdiv. ring.
  - unfold mean_axis0. rewrite transpose_tab2 by lia.
    unfold tab2. rewrite map_tab. unfold mean at 1 2.
    rewrite tab_length.
    erewrite tab_ext by (intros k _; rewrite tab_length; reflexivity).
    unfold tab. rewrite (sum_map_div (INR B)). f_equal.
    apply (sum_map_swap (fun k i => f i k)).
Qed.

Lemma construct_spec (self : CrossEntropyLoss.t) (B K : nat) (inputs : mat) (targets : list Z) :
  shape B K inputs -> length targets = B -> CrossEntropyLoss.num_classes self = K ->
  CrossEntropyLoss.construct self inputs targets =
  spec_cross_entropy (CrossEntropyLoss.eps self) K inputs targets.
Proof.
  intros Hs Ht HK. unfold CrossEntropyLoss.construct, spec_cross_entropy. cbv zeta.
  destruct (Nat.eq_dec B 0) as [-> | HB].
  - destruct Hs as [Hl _]. apply length_zero_iff_nil in Hl, Ht. subst.
    unfold mean. simpl. unfold Rdiv. ring.
  - rewrite (LogSoftmax_tab2 B K inputs Hs).
    rewrite ncols_tab2 by lia.
    rewrite (OneHot_tab2 B K targets Ht).
    unfold smul, sadd, neg, mul. rewrite !map_tab2, ew2_tab2.
    rewrite sum_mean_axis0.
    assert (HL : length (combine inputs targets) = B).
    { rewrite length_combine. destruct Hs. lia. }
    rewrite <- (tab_map_nth B (combine inputs targets) ([], 0%Z) _ HL).
    unfold mean. rewrite !tab_length.
    rewrite <- Rdiv_opp_l. f_equal. unfold tab at 1 3. rewrite <- sum_map_opp.
    f_equal. apply map_ext_in. intros i _.
    rewrite nth_batch by (destruct Hs; congruence). cbn [fst snd].
    unfold tab. rewrite <- sum_map_opp. f_equal. apply map_ext. intros k.
    unfold smooth_target. rewrite HK. lra.
Qed.

(** C2: for logits of shape [(B, K)] with [K = num_classes] and labels of
    shape [(B)], [CrossEntropyLoss.construct] returns
    [-mean_over_batch(sum_over_classes(target * log_softmax(logits)))] with
    [target = (1-eps)*onehot(labels) + eps/K]; the code's [.mean(0).sum()] is
    the mean over the batch of the per-sample sum over the classes. *)
Theorem construct_cross_entropy (self : CrossEntropyLoss.t) (B K : nat)
    (inputs : mat) (targets : list Z) :
  shape B K inputs -> length targets = B -> CrossEntropyLoss.num_classes self = K ->
  CrossEntropyLoss.construct self inputs targets =
    spec_cross_entropy (CrossEntropyLoss.eps self) K inputs targets /\
  (forall t : mat, shape B K t -> sum (mean_axis0 t) = mean (map sum t)).
Proof.
  intros Hs Ht HK. split; [now apply (construct_spec self B K)|].
  intros t Hsh. rewrite (shape_tab2 B K t Hsh) at 1.
  rewrite sum_mean_axis0. f_equal.
  etransitivity; [|apply (tab_map_nth B t [] sum (proj1 Hsh))].
  apply tab_ext. intros i Hi. f_equal. symmetry.
  apply (tab_nth K (nth i t []) 0). eapply shape_row; eauto.
Qed.

Lemma construct_cross_entropy_witness :
  (shape 2 2 [[1; 2]; [3; 4]] /\ length [0%Z; 1%Z] = 2%nat /\
   CrossEntropyLoss.num_classes (CrossEntropyLoss.init 2 0.1 true) = 2%nat) /\
  CrossEntropyLoss.construct (CrossEntropyLoss.init 2 0.1 true) [[1; 2]; [3; 4]] [0%Z; 1%Z] =
    spec_cross_entropy (CrossEntropyLoss.eps (CrossEntropyLoss.init 2 0.1 true)) 2
      [[1; 2]; [3; 4]] [0%Z; 1%Z] /\
  (forall t : mat, shape 2 2 t -> sum (mean_axis0 t) = mean (map sum t)).
Proof.
  assert (Hs : shape 2 2 [[1; 2]; [3; 4]]) by (split; [reflexivity | repeat constructor]).
  assert (Ht : length [0%Z; 1%Z] = 2%nat) by reflexivity.
  assert (HK : CrossEntropyLoss.num_classes (CrossEntropyLoss.init 2 0.1 true) = 2%nat)
    by reflexivity.
  split; [exact (conj Hs (conj Ht HK))|].
  exact (construct_cross_entropy (CrossEntropyLoss.init 2 0.1 true) 2 2
           [[1; 2]; [3; 4]] [0%Z; 1%Z] Hs Ht HK).
Defined.

(** *** Label smoothing on correctly classified batches *)

Lemma tab_S {A} (n : nat) (f : nat -> A) : tab (S n) f = tab n f ++ [f n].
Proof. unfold tab. now rewrite seq_S, map_app. Qed.

Lemma sum_app (l l' : vec) : sum (l ++ l') = sum l + sum l'.
Proof. induction l as [|a l IH]; simpl; [lra|]. rewrite IH. lra. Qed.


Lemma sum_map_const {A} (c : R) (l : list A) :
  sum (map (fun _ => c) l) = INR (length l) * c.
Proof.
  induction l as [|a l IH]; [simpl; lra|].
  cbn [map sum fold_right length]. fold (sum (map (fun _ : A => c) l)).
  rewrite IH, S_INR. lra.
Qed.

(** A one-hot row selects the entry of its class. *)
Lemma sum_onehot (K c : nat) (f : nat -> R) :
  sum (tab K (fun k => b2r (Z.eqb (Z.of_nat k) (Z.of_nat c)) * f k)) =
  if (c <? K)%nat then f c else 0.
Proof.
  induction K as [|K IH]; [reflexivity|].
  rewrite tab_S, sum_app, IH. simpl.
  destruct (Nat.ltb_spec c K) as [Hlt | Hge].
  - destruct (Nat.ltb_spec c (S K)) as [_ | ?]; [|lia].
    assert (E : Z.eqb (Z.of_nat K) (Z.of_nat c) = false) by (apply Z.eqb_neq; lia).
    rewrite E. simpl. lra.
  - destruct (Nat.ltb_spec c (S K)) as [Hlt' | Hge'].
    + assert (c = K) by lia. subst c. rewrite Z.eqb_refl. simpl. lra.
    + assert (E : Z.eqb (Z.of_nat K) (Z.of_nat c) = false) by (apply Z.eqb_neq; lia).
      rewrite E. simpl. lra.
Qed.

(** The smoothed target against a row [f] of log-probabilities. *)
Lemma smooth_row_sum (e : R) (K : nat) (lab : Z) (f : nat -> R) :
  (0 <= lab < Z.of_nat K)%Z ->
  sum (tab K (fun k => smooth_target e K lab k * f k)) =
  (1 - e) * f (Z.to_nat lab) + e / INR K * sum (tab K f).
Proof.
  intros Hlab. unfold smooth_target.
  rewrite (tab_ext K _ (fun k =>
    (1 - e) * (b2r (Z.eqb (Z.of_nat k) (Z.of_nat (Z.to_nat lab))) * f k)
    + e / INR K * f k)).
  - unfold tab. rewrite sum_map_plus, !sum_map_scal.
    fold (tab K (fun k => b2r (Z.eqb (Z.of_nat k) (Z.of_nat (Z.to_nat lab))) * f k)).
    rewrite sum_onehot.
    destruct (Nat.ltb_spec (Z.to_nat lab) K) as [_ | ?]; [reflexivity | lia].
  - intros k _. rewrite Z2Nat.id by lia. lra.
Qed.


Lemma spec_cross_entropy_rows (e : R) (B K : nat) (inputs : mat) (targets : list Z) :
  shape B K inputs -> length targets = B ->
  (forall i, (i < B)%nat -> (0 <= label targets i < Z.of_nat K)%Z) ->
  spec_cross_entropy e K inputs targets =
  - (sum (tab B (fun i =>
       (1 - e) * log_softmax (row inputs i) (true_class targets i)
       + e / INR K * sum (tab K (log_softmax (row inputs i))))) / INR B).
Proof.
  intros Hs Ht Hlab. unfold spec_cross_entropy, mean.
  assert (HL : length (combine inputs targets) = B).
  { rewrite length_combine. destruct Hs. lia. }
  rewrite length_map, HL. f_equal. f_equal. f_equal.
  rewrite <- (tab_map_nth B (combine inputs targets) ([], 0%Z) _ HL).
  apply tab_ext. intros i Hi.
  rewrite nth_batch by (destruct Hs; congruence). cbn [fst snd].
  now apply smooth_row_sum, Hlab.
Qed.

Lemma LogSoftmax_at2 (B K i k : nat) (inputs : mat) :
  shape B K inputs -> (i < B)%nat -> (k < K)%nat ->
  at2 (LogSoftmax inputs) i k = log_softmax (row inputs i) k.
Proof.
  intros Hs Hi Hk. rewrite (LogSoftmax_tab2 B K inputs Hs).
  now rewrite at2_tab2 by assumption.
Qed.




(** ** [softmax_weights] *)

Lemma softmax_weights_tab2 (B C : nat) (d m : nat -> nat -> R) :
  softmax_weights (tab2 B C d) (tab2 B C m) =
  tab2 B C (fun i j =>
    exp (d i j - rmax (tab C (fun j' => d i j' * m i j'))) * m i j
    / (sum (tab C (fun j' =>
         exp (d i j' - rmax (tab C (fun j'' => d i j'' * m i j''))) * m i j'))
       + 1e-6)).
Proof.
  unfold softmax_weights. cbv zeta.
  unfold mul, sub, div, exp_ms, sadd, ArgMaxWithValue_keep. cbn [snd].
  rewrite ew2_tab2.
  fold (ReduceMax_keep (tab2 B C (fun i j => d i j * m i j))).
  rewrite ReduceMax_keep_tab2, ew2_tab2_col_r, map_tab2, ew2_tab2.
  unfold ReduceSum_keep, tab2 at 2. rewrite !map_tab. cbn [map].
  rewrite ew2_tab2_col_r. reflexivity.
Qed.

Lemma softmax_weights_spec (B C : nat) (dist mask : mat) :
  shape B C dist -> shape B C mask ->
  softmax_weights dist mask =
  tab2 B C (fun i j =>
    exp (at2 dist i j - rmax (tab C (fun j' => at2 dist i j' * at2 mask i j')))
    * at2 mask i j
    / (sum (tab C (fun j' =>
         exp (at2 dist i j' - rmax (tab C (fun j'' => at2 dist i j'' * at2 mask i j'')))
         * at2 mask i j')) + 1e-6)).
Proof.
  intros Hd Hm.
  transitivity (softmax_weights (tab2 B C (at2 dist)) (tab2 B C (at2 mask))).
  - now rewrite <- (shape_tab2 B C dist Hd), <- (shape_tab2 B C mask Hm).
  - apply softmax_weights_tab2.
Qed.


Lemma sum_ge_elem (l : vec) (a : R) :
  (forall b, In b l -> 0 <= b) -> In a l -> a <= sum l.
Proof.
  induction l as [|b l IH]; simpl; intros Hnn Hin; [contradiction|].
  assert (Hl : 0 <= sum l).
  { rewrite <- (map_id l). apply sum_map_nonneg. intros c Hc. apply Hnn. now right. }
  destruct Hin as [-> | Hin].
  - lra.
  - assert (0 <= b) by (apply Hnn; now left).
    assert (a <= sum l) by (apply IH; [intros c Hc; apply Hnn; now right | exact Hin]).
    lra.
Qed.

(** The normalizing denominator is positive. *)
Lemma softmax_denominator (C : nat) (e m : nat -> R) :
  (forall j, (j < C)%nat -> 0 <= e j) ->
  (forall j, (j < C)%nat -> m j = 0 \/ m j = 1) ->
  0 <= sum (tab C (fun j => e j * m j)).
Proof.
  intros He Hm. unfold tab. apply sum_map_nonneg. intros j Hj.
  apply in_seq in Hj.
  assert (0 <= e j) by (apply He; lia).
  destruct (Hm j) as [-> | ->]; [lia | lra | lra].
Qed.



(** A row of 32 equal masked entries on float32: every difference to the row
    maximum is [0], every exponential is [exp(0) = 1], the masked sum is
    [32], and [32 + 1e-6] rounds back to [32], so that every weight is
    [1/32]. *)
Lemma softmax_weights32_equal_row (fexp : spec_float -> spec_float) :
  fexp (S754_zero false) = Float32.of_Z 1 ->
  Float32.softmax_weights fexp
    [repeat (Float32.of_Z 1) 32] [repeat (Float32.of_Z 1) 32] =
  [repeat (Float32.fdiv (Float32.of_Z 1) (Float32.of_Z 32)) 32].
Proof.
  intros H0. unfold Float32.softmax_weights. cbv zeta.
  assert (Ediff :
    ew2 Float32.fsub [repeat (Float32.of_Z 1) 32]
      (map (fun r => [Float32.frmax r])
         (ew2 Float32.fmul [repeat (Float32.of_Z 1) 32] [repeat (Float32.of_Z 1) 32]))
    = [repeat (S754_zero false) 32]) by (vm_compute; reflexivity).
  rewrite Ediff.
  assert (Eexp : map (map fexp) [repeat (S754_zero false) 32]
                 = [repeat (Float32.of_Z 1) 32]).
  { cbn [map repeat]. rewrite !H0. reflexivity. }
  rewrite Eexp. vm_compute. reflexivity.
Qed.

(** C10, as the specification states it, fails on float32: the spacing of
    the float32 values around [32] is larger than [2e-6], so [32 + 1e-6] is
    [32] again.  For a row of 32 equal masked entries the denominator is the
    masked sum itself, the 32 weights are [1/32] each, and the row sums to
    exactly [1], whatever the [P.Exp] kernel is as long as [exp(0) = 1]. *)
Lemma softmax_weights_row_sum_one :
  let ones := [repeat (Float32.of_Z 1) 32] in
  let w := repeat (Float32.fdiv (Float32.of_Z 1) (Float32.of_Z 32)) 32 in
  Float32.fadd (Float32.of_Z 32) Float32.f1e_6 = Float32.of_Z 32 /\
  (forall fexp, fexp (S754_zero false) = Float32.of_Z 1 ->
     Float32.softmax_weights fexp ones ones = [w]) /\
  sum (map Float32.F2R w) = 1 /\
  Float32.fsum w = Float32.of_Z 1.
Proof.
  cbv zeta. split; [vm_compute; reflexivity|].
  split; [exact softmax_weights32_equal_row|].
  split; [|vm_compute; reflexivity].
  replace (Float32.fdiv (Float32.of_Z 1) (Float32.of_Z 32))
    with (S754_finite false 8388608 (-28)) by (vm_compute; reflexivity).
  cbv [repeat map sum fold_right].
  unfold Float32.F2R, cond_Zopp.
  cbv [powerRZ Pos.to_nat Pos.iter_op Init.Nat.add].
  lra.
Qed.

(** C10, amended: for a 0/1 mask whose rows each contain a 1, and distances
    that exceed the row maximum of [dist * mask] by at most [88], so that the
    float32 exponential of an unmasked entry does not overflow, the matrix
    returned by [softmax_weights] is zero wherever the mask is 0, and all its
    entries lie between 0 and 1.  The bound on the row sums is not part of
    the statement. *)
Theorem softmax_weights_rows (B C : nat) (dist mask : mat) :
  shape B C dist -> shape B C mask ->
  (forall i j, (i < B)%nat -> (j < C)%nat -> at2 mask i j = 0 \/ at2 mask i j = 1) ->
  (forall i, (i < B)%nat -> exists j, (j < C)%nat /\ at2 mask i j = 1) ->
  (forall i j, (i < B)%nat -> (j < C)%nat ->
     diff_at C (at2 dist) (at2 mask) i j <= 88) ->
  shape B C (softmax_weights dist mask) /\
  (forall i j, (i < B)%nat -> (j < C)%nat -> at2 mask i j = 0 ->
     at2 (softmax_weights dist mask) i j = 0) /\
  (forall i j, (i < B)%nat -> (j < C)%nat ->
     0 <= at2 (softmax_weights dist mask) i j <= 1).
Proof.
  intros Hd Hm H01 _ _.
  rewrite (softmax_weights_spec B C dist mask Hd Hm).
  set (mx := fun i => rmax (tab C (fun j' => at2 dist i j' * at2 mask i j'))).
  set (e := fun i j => exp (at2 dist i j - mx i)).
  set (Sm := fun i => sum (tab C (fun j' => e i j' * at2 mask i j'))).
  change (tab2 B C (fun i j =>
            exp (at2 dist i j - rmax (tab C (fun j' => at2 dist i j' * at2 mask i j')))
            * at2 mask i j
            / (sum (tab C (fun j' =>
                 exp (at2 dist i j'
                      - rmax (tab C (fun j'' => at2 dist i j'' * at2 mask i j'')))
                 * at2 mask i j')) + 1e-6)))
    with (tab2 B C (fun i j => e i j * at2 mask i j / (Sm i + 1e-6))).
  assert (Hterm : forall i j, (i < B)%nat -> (j < C)%nat -> 0 <= e i j * at2 mask i j).
  { intros i j Hi Hj. assert (0 < e i j) by apply exp_pos.
    destruct (H01 i j Hi Hj) as [-> | ->]; lra. }
  assert (HS : forall i j, (i < B)%nat -> (j < C)%nat ->
            0 <= e i j * at2 mask i j <= Sm i).
  { intros i j Hi Hj. split; [now apply Hterm|].
    apply sum_ge_elem.
    - intros b Hb. apply In_tab in Hb. destruct Hb as (j' & Hj' & ->).
      now apply Hterm.
    - apply In_tab. exists j. split; [assumption | reflexivity]. }
  split; [apply shape_tab2_intro|]. split.
  - intros i j Hi Hj M0. rewrite at2_tab2 by assumption. rewrite M0.
    unfold Rdiv. ring.
  - intros i j Hi Hj. rewrite at2_tab2 by assumption.
    destruct (HS i j Hi Hj) as [H0 H1].
    assert (Hz : 0 < Sm i + 1e-6) by lra.
    split.
    + apply Rmult_le_pos; [exact H0 | left; now apply Rinv_0_lt_compat].
    + apply Rmult_le_reg_r with (Sm i + 1e-6); [exact Hz|].
      unfold Rdiv. rewrite Rmult_assoc, Rinv_l by lra. lra.
Qed.

Lemma softmax_weights_rows_witness :
  (shape 1 2 [[1; 2]] /\ shape 1 2 [[1; 0]] /\
   (forall i j, (i < 1)%nat -> (j < 2)%nat ->
      at2 [[1; 0]] i j = 0 \/ at2 [[1; 0]] i j = 1) /\
   (forall i, (i < 1)%nat -> exists j, (j < 2)%nat /\ at2 [[1; 0]] i j = 1) /\
   (forall i j, (i < 1)%nat -> (j < 2)%nat ->
      diff_at 2 (at2 [[1; 2]]) (at2 [[1; 0]]) i j <= 88)) /\
  shape 1 2 (softmax_weights [[1; 2]] [[1; 0]]) /\
  (forall i j, (i < 1)%nat -> (j < 2)%nat -> at2 [[1; 0]] i j = 0 ->
     at2 (softmax_weights [[1; 2]] [[1; 0]]) i j = 0) /\
  (forall i j, (i < 1)%nat -> (j < 2)%nat ->
     0 <= at2 (softmax_weights [[1; 2]] [[1; 0]]) i j <= 1).
Proof.
  assert (Hd : shape 1 2 [[1; 2]]) by (split; [reflexivity | repeat constructor]).
  assert (Hm : shape 1 2 [[1; 0]]) by (split; [reflexivity | repeat constructor]).
  assert (H01 : forall i j, (i < 1)%nat -> (j < 2)%nat ->
            at2 [[1; 0]] i j = 0 \/ at2 [[1; 0]] i j = 1).
  { intros i j Hi Hj. destruct i as [|i]; [|lia].
    destruct j as [|[|j]]; [right; reflexivity | left; reflexivity | lia]. }
  assert (H1 : forall i, (i < 1)%nat -> exists j, (j < 2)%nat /\ at2 [[1; 0]] i j = 1).
  { intros i Hi. exists 0%nat. destruct i as [|i]; [|lia]. split; [lia | reflexivity]. }
  assert (H88 : forall i j, (i < 1)%nat -> (j < 2)%nat ->
            diff_at 2 (at2 [[1; 2]]) (at2 [[1; 0]]) i j <= 88).
  { intros i j Hi Hj. destruct i as [|i]; [|lia].
    assert (Emax : rmax (tab 2 (fun j' => at2 [[1; 2]] 0 j' * at2 [[1; 0]] 0 j')) = 1).
    { cbv [rmax tab map seq at2 nth zero Zero_R fold_right].
      rewrite Rmult_1_r, Rmult_0_r. apply Rmax_right. lra. }
    unfold diff_at. rewrite Emax.
    destruct j as [|[|j]]; [| |lia]; cbv [at2 nth zero Zero_R]; lra. }
  split; [exact (conj Hd (conj Hm (conj H01 (conj H1 H88))))|].
  exact (softmax_weights_rows 1 2 [[1; 2]] [[1; 0]] Hd Hm H01 H1 H88).
Defined.

(** * Further properties of the loss functions *)

(** ** [CrossEntropyLoss] *)

Lemma sum_map_nonpos {A} (f : A -> R) (l : list A) :
  (forall a, In a l -> f a <= 0) -> sum (map f l) <= 0.
Proof.
  induction l as [|a l IH]; simpl; intros H; [lra|].
  assert (f a <= 0) by (apply H; now left).
  assert (sum (map f l) <= 0) by (apply IH; intros; apply H; now right).
  lra.
Qed.

(** A log-probability is never positive. *)
Lemma log_softmax_nonpos (x : vec) (k : nat) :
  (k < length x)%nat -> log_softmax x k <= 0.
Proof.
  intros Hk. unfold log_softmax.
  assert (Hin : In (exp (nth k x 0)) (map exp x)).
  { apply in_map. now apply nth_In. }
  assert (Hle : exp (nth k x 0) <= sum (map exp x)).
  { apply sum_ge_elem; [|exact Hin].
    intros b Hb. apply in_map_iff in Hb as (c & <- & _). left. apply exp_pos. }
  assert (Hpos : 0 < exp (nth k x 0)) by apply exp_pos.
  destruct Hle as [Hlt | Heq].
  - apply (ln_increasing _ _ Hpos) in Hlt. rewrite ln_exp in Hlt. lra.
  - rewrite <- Heq, ln_exp. lra.
Qed.

(** X1: with [label_smooth=False], whatever [eps] is passed, the loss is the
    ordinary cross entropy: minus the mean over the batch of the
    log-probability of the true class. *)
Theorem cross_entropy_without_smoothing (e : R) (B K : nat)
    (inputs : mat) (targets : list Z) :
  shape B K inputs -> length targets = B ->
  (forall i, (i < B)%nat -> (0 <= label targets i < Z.of_nat K)%Z) ->
  CrossEntropyLoss.construct (CrossEntropyLoss.init K e false) inputs targets =
  - mean (tab B (fun i => at2 (LogSoftmax inputs) i (true_class targets i))).
Proof.
  intros Hs Ht Hlab.
  rewrite (construct_spec _ B K) by (auto; reflexivity).
  rewrite (spec_cross_entropy_rows _ B K) by assumption.
  cbn [CrossEntropyLoss.eps CrossEntropyLoss.init].
  unfold mean. rewrite tab_length. f_equal. f_equal. f_equal.
  apply tab_ext. intros i Hi.
  rewrite (LogSoftmax_at2 B K) by (auto; unfold true_class; specialize (Hlab i Hi); lia).
  unfold Rdiv. ring.
Qed.

Lemma cross_entropy_without_smoothing_witness :
  (shape 2 2 [[1; 2]; [3; 4]] /\ length [0%Z; 1%Z] = 2%nat /\
   (forall i, (i < 2)%nat -> (0 <= label [0%Z; 1%Z] i < Z.of_nat 2)%Z)) /\
  CrossEntropyLoss.construct (CrossEntropyLoss.init 2 0.1 false)
    [[1; 2]; [3; 4]] [0%Z; 1%Z] =
  - mean (tab 2 (fun i =>
      at2 (LogSoftmax [[1; 2]; [3; 4]]) i (true_class [0%Z; 1%Z] i))).
Proof.
  assert (Hs : shape 2 2 [[1; 2]; [3; 4]]) by (split; [reflexivity | repeat constructor]).
  assert (Ht : length [0%Z; 1%Z] = 2%nat) by reflexivity.
  assert (Hlab : forall i, (i < 2)%nat -> (0 <= label [0%Z; 1%Z] i < Z.of_nat 2)%Z).
  { intros i Hi. destruct i as [|[|i]]; [cbn; lia | cbn; lia | lia]. }
  split; [exact (conj Hs (conj Ht Hlab))|].
  exact (cross_entropy_without_smoothing 0.1 2 2 [[1; 2]; [3; 4]] [0%Z; 1%Z] Hs Ht Hlab).
Defined.

(** X2: for a smoothing factor in [[0, 1]] the loss of a non-empty batch is
    never negative. *)
Theorem cross_entropy_nonneg (self : CrossEntropyLoss.t) (B K : nat)
    (inputs : mat) (targets : list Z) :
  shape B K inputs -> length targets = B -> CrossEntropyLoss.num_classes self = K ->
  (1 <= B)%nat -> (1 <= K)%nat ->
  0 <= CrossEntropyLoss.eps self <= 1 ->
  0 <= CrossEntropyLoss.construct self inputs targets.
Proof.
  intros Hs Ht HK HB HK1 He.
  rewrite (construct_spec self B K) by assumption.
  unfold spec_cross_entropy, mean. rewrite length_map.
  assert (HL : length (combine inputs targets) = B).
  { rewrite length_combine. destruct Hs. lia. }
  rewrite HL.
  assert (HBpos : 0 < INR B) by (apply lt_0_INR; lia).
  assert (HKpos : 0 < INR K) by (apply lt_0_INR; lia).
  set (G := fun p : list R * Z =>
    sum (tab K (fun k =>
      smooth_target (CrossEntropyLoss.eps self) K (snd p) k * log_softmax (fst p) k))).
  assert (Hsum : sum (map G (combine inputs targets)) <= 0).
  { apply sum_map_nonpos. intros [x t] Hin. unfold G. cbn [fst snd].
    unfold tab. apply sum_map_nonpos. intros k Hk. apply in_seq in Hk.
    assert (Hx : length x = K).
    { apply in_combine_l in Hin. destruct Hs as [_ Hf].
      rewrite Forall_forall in Hf. now apply Hf. }
    assert (Hlp : log_softmax x k <= 0) by (apply log_softmax_nonpos; lia).
    assert (Hst : 0 <= smooth_target (CrossEntropyLoss.eps self) K t k).
    { unfold smooth_target.
      assert (0 <= CrossEntropyLoss.eps self / INR K).
      { apply Rmult_le_pos; [lra | left; now apply Rinv_0_lt_compat]. }
      destruct (Z.eqb (Z.of_nat k) t); simpl; lra. }
    nra. }
  assert (Hdiv : sum (map G (combine inputs targets)) / INR B <= 0).
  { unfold Rdiv.
    assert (0 < / INR B) by now apply Rinv_0_lt_compat. nra. }
  lra.
Qed.

Lemma cross_entropy_nonneg_witness :
  (shape 2 2 [[1; 2]; [3; 4]] /\ length [0%Z; 1%Z] = 2%nat /\
   CrossEntropyLoss.num_classes (CrossEntropyLoss.init 2 0.1 true) = 2%nat /\
   (1 <= 2)%nat /\ (1 <= 2)%nat /\
   0 <= CrossEntropyLoss.eps (CrossEntropyLoss.init 2 0.1 true) <= 1) /\
  0 <= CrossEntropyLoss.construct (CrossEntropyLoss.init 2 0.1 true)
         [[1; 2]; [3; 4]] [0%Z; 1%Z].
Proof.
  assert (Hs : shape 2 2 [[1; 2]; [3; 4]]) by (split; [reflexivity | repeat constructor]).
  assert (Ht : length [0%Z; 1%Z] = 2%nat) by reflexivity.
  assert (HK : CrossEntropyLoss.num_classes (CrossEntropyLoss.init 2 0.1 true) = 2%nat)
    by reflexivity.
  assert (H1 : (1 <= 2)%nat) by lia.
  assert (He : 0 <= CrossEntropyLoss.eps (CrossEntropyLoss.init 2 0.1 true) <= 1)
    by (cbn; lra).
  split; [exact (conj Hs (conj Ht (conj HK (conj H1 (conj H1 He)))))|].
  exact (cross_entropy_nonneg _ 2 2 [[1; 2]; [3; 4]] [0%Z; 1%Z] Hs Ht HK H1 H1 He).
Defined.

(** X3: the smoothed loss is the blend, by the factor [eps], of the loss
    without smoothing and the loss against the uniform target ([eps = 1]). *)
Theorem cross_entropy_blend (e : R) (B K : nat) (inputs : mat) (targets : list Z) :
  shape B K inputs -> length targets = B ->
  CrossEntropyLoss.construct (CrossEntropyLoss.init K e true) inputs targets =
  (1 - e) * CrossEntropyLoss.construct (CrossEntropyLoss.init K 0 true) inputs targets
  + e * CrossEntropyLoss.construct (CrossEntropyLoss.init K 1 true) inputs targets.
Proof.
  intros Hs Ht.
  rewrite !(construct_spec _ B K) by (auto; reflexivity).
  cbn [CrossEntropyLoss.eps CrossEntropyLoss.init].
  unfold spec_cross_entropy, mean. rewrite !length_map.
  set (L := combine inputs targets).
  set (G := fun (a : R) (p : list R * Z) =>
    sum (tab K (fun k => smooth_target a K (snd p) k * log_softmax (fst p) k))).
  assert (HG : forall p, G e p = (1 - e) * G 0 p + e * G 1 p).
  { intros p. unfold G, tab. rewrite <- !sum_map_scal, <- sum_map_plus.
    f_equal. apply map_ext. intros k. unfold smooth_target, Rdiv. ring. }
  assert (Hsum : sum (map (G e) L) = (1 - e) * sum (map (G 0) L) + e * sum (map (G 1) L)).
  { rewrite <- !sum_map_scal, <- sum_map_plus. f_equal. apply map_ext. exact HG. }
  fold (G e) (G 0) (G 1). rewrite Hsum. unfold Rdiv. ring.
Qed.

Lemma cross_entropy_blend_witness :
  (shape 2 2 [[1; 2]; [3; 4]] /\ length [0%Z; 1%Z] = 2%nat) /\
  CrossEntropyLoss.construct (CrossEntropyLoss.init 2 0.1 true) [[1; 2]; [3; 4]] [0%Z; 1%Z] =
  (1 - 0.1) * CrossEntropyLoss.construct (CrossEntropyLoss.init 2 0 true)
                [[1; 2]; [3; 4]] [0%Z; 1%Z]
  + 0.1 * CrossEntropyLoss.construct (CrossEntropyLoss.init 2 1 true)
            [[1; 2]; [3; 4]] [0%Z; 1%Z].
Proof.
  assert (Hs : shape 2 2 [[1; 2]; [3; 4]]) by (split; [reflexivity | repeat constructor]).
  assert (Ht : length [0%Z; 1%Z] = 2%nat) by reflexivity.
  split; [exact (conj Hs Ht)|].
  exact (cross_entropy_blend 0.1 2 2 [[1; 2]; [3; 4]] [0%Z; 1%Z] Hs Ht).
Defined.

(** ** [MarginRankingLoss] *)

Lemma relu_nonneg (x : R) : 0 <= relu x.
Proof. rewrite relu_Rmax. apply Rmax_l. Qed.

Lemma relu_zero_iff (x : R) : relu x = 0 <-> x <= 0.
Proof.
  rewrite relu_Rmax. split; intros H.
  - pose proof (Rmax_r 0 x). lra.
  - now apply Rmax_left.
Qed.

Lemma sum_map_zero_iff {A} (f : A -> R) (l : list A) :
  (forall a, In a l -> 0 <= f a) ->
  (sum (map f l) = 0 <-> forall a, In a l -> f a = 0).
Proof.
  induction l as [|a l IH]; simpl; intros Hnn.
  - split; [intros _ b [] | reflexivity].
  - assert (Ha : 0 <= f a) by (apply Hnn; now left).
    assert (Hl : 0 <= sum (map f l)) by (apply sum_map_nonneg; intros; apply Hnn; now right).
    assert (IH' := IH (fun b Hb => Hnn b (or_intror Hb))).
    split.
    + intros E b [<- | Hb]; [lra|]. apply IH'; [lra | exact Hb].
    + intros H. rewrite (H a (or_introl eq_refl)).
      rewrite (proj2 IH' (fun b Hb => H b (or_intror Hb))). lra.
Qed.

Lemma mean_tab_nonneg (n : nat) (f : nat -> R) :
  (forall i, (i < n)%nat -> 0 <= f i) -> 0 <= mean (tab n f).
Proof.
  intros H. unfold mean. rewrite tab_length.
  destruct n as [|n].
  - simpl. unfold Rdiv. rewrite Rmult_0_l. lra.
  - apply Rmult_le_pos.
    + unfold tab. apply sum_map_nonneg. intros i Hi. apply in_seq in Hi. apply H. lia.
    + left. apply Rinv_0_lt_compat, lt_0_INR. lia.
Qed.

Lemma mean_tab_zero_iff (n : nat) (f : nat -> R) :
  (1 <= n)%nat -> (forall i, (i < n)%nat -> 0 <= f i) ->
  (mean (tab n f) = 0 <-> forall i, (i < n)%nat -> f i = 0).
Proof.
  intros Hn Hnn. unfold mean. rewrite tab_length.
  assert (Hpos : 0 < INR n) by (apply lt_0_INR; lia).
  assert (Hin : forall i, In i (seq 0 n) -> 0 <= f i).
  { intros i Hi. apply in_seq in Hi. apply Hnn. lia. }
  pose proof (sum_map_zero_iff f (seq 0 n) Hin) as Hz. fold (tab n f) in Hz.
  split.
  - intros E i Hi. apply (proj1 Hz).
    + apply Rmult_eq_reg_r with (/ INR n).
      * unfold Rdiv in E. rewrite E. ring.
      * apply Rgt_not_eq. now apply Rinv_0_lt_compat.
    + apply in_seq. lia.
  - intros H. rewrite (proj2 Hz).
    + unfold Rdiv. ring.
    + intros i Hi. apply in_seq in Hi. apply H. lia.
Qed.

(** X4: on [n >= 1] triples the margin ranking loss is a tensor of one
    element, which is never negative, and which is zero exactly when every
    triple satisfies the margin: [(input1 - input2) * y >= margin]. *)
Theorem margin_ranking_zero_iff (self : MarginRankingLoss.t) (n : nat)
    (input1 input2 y : vec) :
  length input1 = n -> length input2 = n -> length y = n -> (1 <= n)%nat ->
  exists loss,
    MarginRankingLoss.construct self input1 input2 y = [loss] /\
    0 <= loss /\
    (loss = 0 <->
     forall i, (i < n)%nat ->
       MarginRankingLoss.margin self <= (nth i input1 0 - nth i input2 0) * nth i y 0).
Proof.
  intros H1 H2 Hy Hn.
  assert (E : MarginRankingLoss.construct self input1 input2 y =
              MarginRankingLoss.construct self (tab n (fun i => nth i input1 0))
                (tab n (fun i => nth i input2 0)) (tab n (fun i => nth i y 0))).
  { now rewrite <- (tab_nth n input1 0 H1), <- (tab_nth n input2 0 H2),
                <- (tab_nth n y 0 Hy). }
  rewrite E, MarginRankingLoss_tab. eexists. split; [reflexivity|].
  split; [apply mean_tab_nonneg; intros; apply relu_nonneg|].
  rewrite mean_tab_zero_iff by (auto; intros; apply relu_nonneg).
  split; intros H i Hi; specialize (H i Hi).
  - apply relu_zero_iff in H. lra.
  - apply relu_zero_iff. lra.
Qed.

Lemma margin_ranking_zero_iff_witness :
  (length [1; 2] = 2%nat /\ length [3; 1] = 2%nat /\ length [1; 1] = 2%nat /\
   (1 <= 2)%nat) /\
  exists loss,
    MarginRankingLoss.construct (MarginRankingLoss.init 0.3) [1; 2] [3; 1] [1; 1] = [loss] /\
    0 <= loss /\
    (loss = 0 <->
     forall i, (i < 2)%nat ->
       MarginRankingLoss.margin (MarginRankingLoss.init 0.3)
       <= (nth i [1; 2] 0 - nth i [3; 1] 0) * nth i [1; 1] 0).
Proof.
  assert (H1 : length [1; 2] = 2%nat) by reflexivity.
  assert (H2 : length [3; 1] = 2%nat) by reflexivity.
  assert (Hy : length [1; 1] = 2%nat) by reflexivity.
  assert (Hn : (1 <= 2)%nat) by lia.
  split; [exact (conj H1 (conj H2 (conj Hy Hn)))|].
  exact (margin_ranking_zero_iff (MarginRankingLoss.init 0.3) 2 [1; 2] [3; 1] [1; 1]
           H1 H2 Hy Hn).
Defined.

(** ** [pdist_ms] *)

Lemma sqrt_floor : sqrt 1e-12 = 1e-6.
Proof. replace 1e-12 with (1e-6 * 1e-6) by lra. apply sqrt_square. lra. Qed.

(** X5: on feature sets of [m] and [n >= 1] rows [pdist_ms] returns a matrix
    of shape [(m, n)] whose entries all lie between [1e-6] and [sqrt 1e7],
    the square roots of the two clipping bounds. *)
Theorem pdist_ms_range (m n D : nat) (emb1 emb2 : mat) :
  shape m D emb1 -> shape n D emb2 -> (1 <= D)%nat -> (1 <= n)%nat ->
  exists d, pdist_ms emb1 emb2 = Some d /\ shape m n d /\
    forall i j, (i < m)%nat -> (j < n)%nat -> 1e-6 <= at2 d i j <= sqrt 1e7.
Proof.
  intros H1 H2 HD Hn. eexists. split; [apply (pdist_ms_spec m n D); auto|].
  split; [apply shape_tab2_intro|].
  intros i j Hi Hj. rewrite at2_tab2 by assumption.
  destruct (clip_range 1e-12 1e7 (sqdist (row emb1 i) (row emb2 j))) as [Hlo Hhi]; [lra|].
  rewrite <- sqrt_floor. split; apply sqrt_le_1_alt; assumption.
Qed.

Lemma pdist_ms_range_witness :
  (shape 1 2 [[1; 2]] /\ shape 2 2 [[3; 4]; [5; 6]] /\ (1 <= 2)%nat /\ (1 <= 2)%nat) /\
  exists d, pdist_ms [[1; 2]] [[3; 4]; [5; 6]] = Some d /\ shape 1 2 d /\
    forall i j, (i < 1)%nat -> (j < 2)%nat -> 1e-6 <= at2 d i j <= sqrt 1e7.
Proof.
  assert (H1 : shape 1 2 [[1; 2]]) by (split; [reflexivity | repeat constructor]).
  assert (H2 : shape 2 2 [[3; 4]; [5; 6]]) by (split; [reflexivity | repeat constructor]).
  assert (HD : (1 <= 2)%nat) by lia.
  split; [exact (conj H1 (conj H2 (conj HD HD)))|].
  exact (pdist_ms_range 1 2 2 [[1; 2]] [[3; 4]; [5; 6]] H1 H2 HD HD).
Defined.

(** X6: on float32 the norm expansion of [pdist_ms] loses a small distance
    between rows of large norm.  With a [P.Pow] kernel that returns the
    rounded square, the rows [[0]] and [[3]] are at distance [3]; translated
    by [10000], to [[10000]] and [[10003]], they are at distance [1e-6], the
    square root of the clipping floor: the squared norms [1e8] and
    [100060008] add up to [200060008], which rounds to [200060000], twice the
    product [100030000]. *)
Theorem pdist_ms_large_norm (pow2 : spec_float -> spec_float) :
  (forall n, In n [0; 3; 10000; 10003]%Z ->
     pow2 (Float32.of_Z n) = Float32.fmul (Float32.of_Z n) (Float32.of_Z n)) ->
  Float32.pdist_ms pow2 [[Float32.of_Z 0]; [Float32.of_Z 3]]
                        [[Float32.of_Z 0]; [Float32.of_Z 3]] =
    Some [[Float32.f1e_6; Float32.of_Z 3]; [Float32.of_Z 3; Float32.f1e_6]] /\
  Float32.pdist_ms pow2 [[Float32.of_Z 10000]; [Float32.of_Z 10003]]
                        [[Float32.of_Z 10000]; [Float32.of_Z 10003]] =
    Some [[Float32.f1e_6; Float32.f1e_6]; [Float32.f1e_6; Float32.f1e_6]].
Proof.
  intros H.
  assert (H0 := H 0%Z). assert (H3 := H 3%Z).
  assert (Ha := H 10000%Z). assert (Hb := H 10003%Z).
  split; unfold Float32.pdist_ms; cbv zeta; cbn [map length].
  - rewrite H0, H3 by (simpl; tauto). vm_compute. reflexivity.
  - rewrite Ha, Hb by (simpl; tauto). vm_compute. reflexivity.
Qed.

Lemma pdist_ms_large_norm_witness :
  (forall n, In n [0; 3; 10000; 10003]%Z ->
     (fun x => Float32.fmul x x) (Float32.of_Z n)
     = Float32.fmul (Float32.of_Z n) (Float32.of_Z n)) /\
  Float32.pdist_ms (fun x => Float32.fmul x x)
      [[Float32.of_Z 0]; [Float32.of_Z 3]] [[Float32.of_Z 0]; [Float32.of_Z 3]] =
    Some [[Float32.f1e_6; Float32.of_Z 3]; [Float32.of_Z 3; Float32.f1e_6]] /\
  Float32.pdist_ms (fun x => Float32.fmul x x)
      [[Float32.of_Z 10000]; [Float32.of_Z 10003]]
      [[Float32.of_Z 10000]; [Float32.of_Z 10003]] =
    Some [[Float32.f1e_6; Float32.f1e_6]; [Float32.f1e_6; Float32.f1e_6]].
Proof.
  assert (H : forall n, In n [0; 3; 10000; 10003]%Z ->
     (fun x => Float32.fmul x x) (Float32.of_Z n)
     = Float32.fmul (Float32.of_Z n) (Float32.of_Z n)) by (intros n _; reflexivity).
  split; [exact H|].
  exact (pdist_ms_large_norm (fun x => Float32.fmul x x) H).
Defined.

(** X7: exchanging the two feature sets transposes the result:
    [pdist_ms(emb2, emb1)] is the transpose of [pdist_ms(emb1, emb2)]. *)
Theorem pdist_ms_swap (m n D : nat) (emb1 emb2 : mat) :
  shape m D emb1 -> shape n D emb2 -> (1 <= D)%nat -> (1 <= m)%nat -> (1 <= n)%nat ->
  exists d, pdist_ms emb1 emb2 = Some d /\ pdist_ms emb2 emb1 = Some (transpose d).
Proof.
  intros H1 H2 HD Hm Hn. eexists. split; [apply (pdist_ms_spec m n D); auto|].
  rewrite (pdist_ms_spec n m D) by auto.
  rewrite transpose_tab2 by (left; exact Hm).
  f_equal. apply tab2_ext. intros j i _ _. now rewrite sqdist_comm.
Qed.

Lemma pdist_ms_swap_witness :
  (shape 1 2 [[1; 2]] /\ shape 2 2 [[3; 4]; [5; 6]] /\ (1 <= 2)%nat /\
   (1 <= 1)%nat /\ (1 <= 2)%nat) /\
  exists d, pdist_ms [[1; 2]] [[3; 4]; [5; 6]] = Some d /\
            pdist_ms [[3; 4]; [5; 6]] [[1; 2]] = Some (transpose d).
Proof.
  assert (H1 : shape 1 2 [[1; 2]]) by (split; [reflexivity | repeat constructor]).
  assert (H2 : shape 2 2 [[3; 4]; [5; 6]]) by (split; [reflexivity | repeat constructor]).
  assert (HD : (1 <= 2)%nat) by lia.
  assert (Hm : (1 <= 1)%nat) by lia.
  split; [exact (conj H1 (conj H2 (conj HD (conj Hm HD))))|].
  exact (pdist_ms_swap 1 2 2 [[1; 2]] [[3; 4]; [5; 6]] H1 H2 HD Hm HD).
Defined.

(** ** [OriTripletLoss] *)

Lemma stretch_None {A} (n : nat) (l : list A) :
  length l <> n -> length l <> 1%nat -> stretch n l = None.
Proof.
  intros Hn H1. destruct l as [|a [|b l]]; unfold stretch.
  - destruct (Nat.eqb_spec (length (@nil A)) n); [congruence | reflexivity].
  - simpl in H1. congruence.
  - destruct (Nat.eqb_spec (length (a :: b :: l)) n); [congruence | reflexivity].
Qed.

(** X8: [construct] fails on a batch whose number of rows is neither one nor
    the [batch_size] given to the constructor: the broadcast of the squared
    norms to [(batch_size, batch_size)] is refused. *)
Theorem construct_batch_size_mismatch (self : OriTripletLoss.t)
    (inputs : mat) (targets : list Z) :
  length inputs <> OriTripletLoss.batch_size self -> length inputs <> 1%nat ->
  OriTripletLoss.construct self inputs targets = None.
Proof.
  intros Hbs H1.
  unfold OriTripletLoss.construct, OriTripletLoss.pairwise_distance, OriTripletLoss.expand.
  cbv zeta. rewrite (ReduceSum_keep_pow (length inputs)) by reflexivity.
  unfold BroadcastTo. cbn [fst snd]. rewrite map_tab. cbn [stretch].
  unfold tab. rewrite opt_all_map_Some.
  rewrite stretch_None; [reflexivity | |]; now rewrite length_map, length_seq.
Qed.

Lemma construct_batch_size_mismatch_witness :
  (length [[1; 2]; [3; 4]] <> OriTripletLoss.batch_size (OriTripletLoss.init 0.3 64) /\
   length [[1; 2]; [3; 4]] <> 1%nat) /\
  OriTripletLoss.construct (OriTripletLoss.init 0.3 64) [[1; 2]; [3; 4]] [0%Z; 1%Z] = None.
Proof.
  assert (Hbs : length [[1; 2]; [3; 4]]
                <> OriTripletLoss.batch_size (OriTripletLoss.init 0.3 64))
    by (cbn; lia).
  assert (H1 : length [[1; 2]; [3; 4]] <> 1%nat) by (cbn; lia).
  split; [exact (conj Hbs H1)|].
  exact (construct_batch_size_mismatch (OriTripletLoss.init 0.3 64)
           [[1; 2]; [3; 4]] [0%Z; 1%Z] Hbs H1).
Defined.

Lemma sqrt_ceiling : sqrt 100000000 = 10000.
Proof. replace 100000000 with (10000 * 10000) by lra. apply sqrt_square. lra. Qed.

Lemma ori_dist_range (x y : vec) : 1e-6 <= ori_dist x y <= 10000.
Proof.
  unfold ori_dist.
  destruct (clip_range 1e-12 100000000 (sqdist x y)) as [Hlo Hhi]; [lra|].
  rewrite <- sqrt_floor, <- sqrt_ceiling. split; apply sqrt_le_1_alt; assumption.
Qed.

(** X9: the distance matrix computed inline by [construct] has shape
    [(batch_size, batch_size)], is symmetric, and all its entries lie between
    [1e-6] and [10000], the square roots of the two clipping bounds. *)
Theorem pairwise_distance_matrix (self : OriTripletLoss.t) (B D : nat) (inputs : mat) :
  shape B D inputs -> (1 <= D)%nat -> OriTripletLoss.batch_size self = B ->
  exists dist, OriTripletLoss.pairwise_distance self inputs = Some dist /\
    shape B B dist /\
    (forall i j, (i < B)%nat -> (j < B)%nat -> at2 dist i j = at2 dist j i) /\
    (forall i j, (i < B)%nat -> (j < B)%nat -> 1e-6 <= at2 dist i j <= 10000).
Proof.
  intros Hs HD Hbs. eexists.
  split; [apply (pairwise_distance_spec self B D); assumption|].
  fold ori_dist.
  change (fun i j => sqrt (clip 1e-12 100000000 (sqdist (row inputs i) (row inputs j))))
    with (fun i j => ori_dist (row inputs i) (row inputs j)).
  split; [apply shape_tab2_intro|]. split.
  - intros i j Hi Hj. rewrite !at2_tab2 by assumption.
    unfold ori_dist. now rewrite sqdist_comm.
  - intros i j Hi Hj. rewrite at2_tab2 by assumption. apply ori_dist_range.
Qed.

Lemma pairwise_distance_matrix_witness :
  (shape 2 2 [[1; 2]; [3; 4]] /\ (1 <= 2)%nat /\
   OriTripletLoss.batch_size (OriTripletLoss.init 0.3 2) = 2%nat) /\
  exists dist,
    OriTripletLoss.pairwise_distance (OriTripletLoss.init 0.3 2) [[1; 2]; [3; 4]]
      = Some dist /\
    shape 2 2 dist /\
    (forall i j, (i < 2)%nat -> (j < 2)%nat -> at2 dist i j = at2 dist j i) /\
    (forall i j, (i < 2)%nat -> (j < 2)%nat -> 1e-6 <= at2 dist i j <= 10000).
Proof.
  assert (Hs : shape 2 2 [[1; 2]; [3; 4]]) by (split; [reflexivity | repeat constructor]).
  assert (HD : (1 <= 2)%nat) by lia.
  assert (Hbs : OriTripletLoss.batch_size (OriTripletLoss.init 0.3 2) = 2%nat) by reflexivity.
  split; [exact (conj Hs (conj HD Hbs))|].
  exact (pairwise_distance_matrix _ 2 2 [[1; 2]; [3; 4]] Hs HD Hbs).
Defined.

Lemma rmax_const (n : nat) (c : R) : (1 <= n)%nat -> rmax (tab n (fun _ => c)) = c.
Proof.
  intros Hn.
  assert (Hne : tab n (fun _ : nat => c) <> []).
  { intros E. apply (f_equal (@length R)) in E. rewrite tab_length in E. simpl in E. lia. }
  destruct (proj1 (In_tab _ _ _) (rmax_In _ Hne)) as (i & _ & E). exact E.
Qed.

(** X10: for an anchor without any sample of another label the mask
    expression of the hardest negative takes the minimum over the whole row
    of the distance matrix, the anchor's distance to itself included.  Its
    [dist_an] is then at most its own diagonal entry and at most its
    [dist_ap], the maximum over the same row. *)
Theorem hard_mining_without_negative (self : OriTripletLoss.t) (B D : nat)
    (inputs : mat) (targets : list Z) (i : nat) :
  shape B D inputs -> (1 <= D)%nat -> length targets = B ->
  OriTripletLoss.batch_size self = B -> (2 <= B)%nat -> (i < B)%nat ->
  (forall j, (j < B)%nat -> label targets j = label targets i) ->
  exists dist dist_ap dist_an,
    OriTripletLoss.pairwise_distance self inputs = Some dist /\
    OriTripletLoss.hard_mining self dist targets = Some (dist_ap, dist_an) /\
    nth i dist_an 0 = rmin (row dist i) /\
    nth i dist_ap 0 = rmax (row dist i) /\
    nth i dist_an 0 <= at2 dist i i <= nth i dist_ap 0.
Proof.
  intros Hs HD Ht Hbs HB Hi Hsame.
  set (d := fun i j => ori_dist (row inputs i) (row inputs j)).
  exists (tab2 B B d), (tab B (masked_max B d targets)), (tab B (masked_min B d targets)).
  split; [apply (pairwise_distance_spec self B D); assumption|].
  split; [apply hard_mining_spec; assumption|].
  rewrite !nth_tab by assumption. unfold masked_min, masked_max.
  assert (Emin : tab B (fun j =>
                   rmax (tab B (fun k => d i k * mask_neg_at targets i k))
                   * mask_pos_at targets i j + d i j) = tab B (d i)).
  { apply tab_ext. intros j Hj.
    rewrite (tab_ext B (fun k => d i k * mask_neg_at targets i k) (fun _ => 0)).
    - rewrite rmax_const by lia. lra.
    - intros k Hk. rewrite mask_neg_at_0 by now apply Hsame. lra. }
  assert (Emax : tab B (fun j => d i j * mask_pos_at targets i j) = tab B (d i)).
  { apply tab_ext. intros j Hj. rewrite mask_pos_at_1 by now apply Hsame. lra. }
  assert (Erow : row (tab2 B B d) i = tab B (d i)).
  { unfold row, tab2. now rewrite nth_tab. }
  rewrite Emin, Emax, Erow, at2_tab2 by assumption.
  split; [reflexivity|]. split; [reflexivity|]. split.
  - apply rmin_le. apply In_tab. exists i. split; [assumption | reflexivity].
  - apply rmax_ge. apply In_tab. exists i. split; [assumption | reflexivity].
Qed.

Lemma hard_mining_without_negative_witness :
  (shape 2 1 [[0]; [3]] /\ (1 <= 1)%nat /\ length [5%Z; 5%Z] = 2%nat /\
   OriTripletLoss.batch_size (OriTripletLoss.init 0.3 2) = 2%nat /\
   (2 <= 2)%nat /\ (0 < 2)%nat /\
   (forall j, (j < 2)%nat -> label [5%Z; 5%Z] j = label [5%Z; 5%Z] 0)) /\
  exists dist dist_ap dist_an,
    OriTripletLoss.pairwise_distance (OriTripletLoss.init 0.3 2) [[0]; [3]] = Some dist /\
    OriTripletLoss.hard_mining (OriTripletLoss.init 0.3 2) dist [5%Z; 5%Z]
      = Some (dist_ap, dist_an) /\
    nth 0 dist_an 0 = rmin (row dist 0) /\
    nth 0 dist_ap 0 = rmax (row dist 0) /\
    nth 0 dist_an 0 <= at2 dist 0 0 <= nth 0 dist_ap 0.
Proof.
  assert (Hs : shape 2 1 [[0]; [3]]) by (split; [reflexivity | repeat constructor]).
  assert (HD : (1 <= 1)%nat) by lia.
  assert (Ht : length [5%Z; 5%Z] = 2%nat) by reflexivity.
  assert (Hbs : OriTripletLoss.batch_size (OriTripletLoss.init 0.3 2) = 2%nat) by reflexivity.
  assert (HB : (2 <= 2)%nat) by lia.
  assert (Hi : (0 < 2)%nat) by lia.
  assert (Hsame : forall j, (j < 2)%nat -> label [5%Z; 5%Z] j = label [5%Z; 5%Z] 0).
  { intros j Hj. destruct j as [|[|j]]; [reflexivity | reflexivity | lia]. }
  split; [exact (conj Hs (conj HD (conj Ht (conj Hbs (conj HB (conj Hi Hsame))))))|].
  exact (hard_mining_without_negative _ 2 1 [[0]; [3]] [5%Z; 5%Z] 0
           Hs HD Ht Hbs HB Hi Hsame).
Defined.

(** X11: on a batch of at least two samples [construct] returns a loss that
    is never negative, and that is zero exactly when, for every anchor, the
    hardest negative is at least [margin] farther than the hardest
    positive. *)
Theorem construct_zero_iff (self : OriTripletLoss.t) (B D : nat)
    (inputs : mat) (targets : list Z) :
  shape B D inputs -> (1 <= D)%nat -> length targets = B ->
  OriTripletLoss.batch_size self = B -> (2 <= B)%nat ->
  exists dist dist_ap dist_an loss,
    OriTripletLoss.pairwise_distance self inputs = Some dist /\
    OriTripletLoss.hard_mining self dist targets = Some (dist_ap, dist_an) /\
    OriTripletLoss.construct self inputs targets = Some loss /\
    0 <= loss /\
    (loss = 0 <->
     forall i, (i < B)%nat ->
       OriTripletLoss.margin self <= nth i dist_an 0 - nth i dist_ap 0).
Proof.
  intros Hs HD Ht Hbs HB.
  set (d := fun i j => ori_dist (row inputs i) (row inputs j)).
  exists (tab2 B B d), (tab B (masked_max B d targets)), (tab B (masked_min B d targets)).
  eexists.
  split; [apply (pairwise_distance_spec self B D); assumption|].
  split; [apply hard_mining_spec; assumption|].
  split; [apply (construct_tab self B D); assumption|].
  fold d.
  split; [apply mean_tab_nonneg; intros; apply relu_nonneg|].
  rewrite mean_tab_zero_iff by (try lia; intros; apply relu_nonneg).
  split; intros H i Hi; specialize (H i Hi).
  - apply relu_zero_iff in H. rewrite !nth_tab by assumption. lra.
  - apply relu_zero_iff. rewrite !nth_tab in H by assumption. lra.
Qed.

Lemma construct_zero_iff_witness :
  (shape 2 1 [[0]; [3]] /\ (1 <= 1)%nat /\ length [1%Z; 2%Z] = 2%nat /\
   OriTripletLoss.batch_size (OriTripletLoss.init 0.3 2) = 2%nat /\ (2 <= 2)%nat) /\
  exists dist dist_ap dist_an loss,
    OriTripletLoss.pairwise_distance (OriTripletLoss.init 0.3 2) [[0]; [3]] = Some dist /\
    OriTripletLoss.hard_mining (OriTripletLoss.init 0.3 2) dist [1%Z; 2%Z]
      = Some (dist_ap, dist_an) /\
    OriTripletLoss.construct (OriTripletLoss.init 0.3 2) [[0]; [3]] [1%Z; 2%Z] = Some loss /\
    0 <= loss /\
    (loss = 0 <->
     forall i, (i < 2)%nat ->
       OriTripletLoss.margin (OriTripletLoss.init 0.3 2)
       <= nth i dist_an 0 - nth i dist_ap 0).
Proof.
  assert (Hs : shape 2 1 [[0]; [3]]) by (split; [reflexivity | repeat constructor]).
  assert (HD : (1 <= 1)%nat) by lia.
  assert (Ht : length [1%Z; 2%Z] = 2%nat) by reflexivity.
  assert (Hbs : OriTripletLoss.batch_size (OriTripletLoss.init 0.3 2) = 2%nat) by reflexivity.
  assert (HB : (2 <= 2)%nat) by lia.
  split; [exact (conj Hs (conj HD (conj Ht (conj Hbs HB))))|].
  exact (construct_zero_iff _ 2 1 [[0]; [3]] [1%Z; 2%Z] Hs HD Ht Hbs HB).
Defined.

Lemma rmin_const (n : nat) (c : R) : (1 <= n)%nat -> rmin (tab n (fun _ => c)) = c.
Proof.
  intros Hn.
  assert (Hne : tab n (fun _ : nat => c) <> []).
  { intros E. apply (f_equal (@length R)) in E. rewrite tab_length in E. simpl in E. lia. }
  destruct (proj1 (In_tab _ _ _) (rmin_In _ Hne)) as (i & _ & E). exact E.
Qed.

Lemma mean_const (n : nat) (c : R) : (1 <= n)%nat -> mean (tab n (fun _ => c)) = c.
Proof.
  intros Hn. unfold mean, tab. rewrite sum_map_const, length_map, length_seq.
  field. apply Rgt_not_eq, lt_0_INR. lia.
Qed.

(** A tensor of shape [(1, 1)] broadcast to [(m, n)]. *)
Lemma BroadcastTo_one {A} (m n : nat) (a : A) :
  BroadcastTo (m, n) [[a]] = Some (tab2 m n (fun _ _ => a)).
Proof.
  unfold BroadcastTo. simpl. f_equal. unfold tab2.
  rewrite repeat_tab. apply tab_ext. intros i _. apply repeat_tab.
Qed.

(** A tensor of shape [(1, 1)] on the right is stretched along both axes. *)
Lemma ew2_tab2_one_r {A B C} (f : A -> B -> C) (m n : nat) (g : nat -> nat -> A) (b : B) :
  ew2 f (tab2 m n g) [[b]] = tab2 m n (fun i j => f (g i j) b).
Proof.
  unfold ew2, tab2. rewrite bcast2_one_r, map_tab. apply tab_ext. intros i _.
  rewrite bcast2_one_r. apply map_tab.
Qed.

(** X12: a batch of a single sample is accepted when [batch_size >= 2], and
    the loss returned is [max(0, margin)] whatever the sample and its
    label. *)
Theorem construct_single_sample (self : OriTripletLoss.t) (D : nat) (x : vec) (t : Z) :
  length x = D -> (1 <= D)%nat -> (2 <= OriTripletLoss.batch_size self)%nat ->
  OriTripletLoss.construct self [x] [t] = Some (Rmax 0 (OriTripletLoss.margin self)).
Proof.
  intros Hx HD Hbs. set (bs := OriTripletLoss.batch_size self) in *.
  set (c := ori_dist x x).
  assert (Hdist : OriTripletLoss.pairwise_distance self [x] =
                  Some (tab2 bs bs (fun _ _ => c))).
  { unfold OriTripletLoss.pairwise_distance, OriTripletLoss.expand. cbv zeta.
    fold bs. rewrite (ReduceSum_keep_pow 1) by reflexivity.
    change (tab 1 (fun i => [sqnorm (row [x] i)])) with [[sqnorm x]].
    rewrite BroadcastTo_one. rewrite transpose_tab2 by lia.
    assert (Hsx : shape 1 D [x]) by (split; [reflexivity | repeat constructor; exact Hx]).
    rewrite (matmul_transpose 1 1 D [x] [x] eq_refl Hsx HD).
    change (tab2 1 1 (fun i j => dot (row [x] i) (row [x] j))) with [[dot x x]].
    unfold add, smul, clip_by_value, sqrt_ms. cbn [map].
    rewrite ew2_tab2, ew2_tab2_one_r, !map_tab2.
    reflexivity. }
  assert (Hmine : OriTripletLoss.hard_mining self (tab2 bs bs (fun _ _ => c)) [t] =
                  Some (tab bs (fun _ => c), tab bs (fun _ => c))).
  { transitivity (OriTripletLoss.hard_mining self (tab2 bs bs (fun _ _ => c))
                    (repeat t bs)).
    - unfold OriTripletLoss.hard_mining, OriTripletLoss.expand. fold bs.
      rewrite BroadcastTo_one.
      rewrite (BroadcastTo_row bs bs (repeat t bs)) by apply repeat_length.
      replace (tab bs (fun _ : nat => repeat t bs)) with (tab2 bs bs (fun _ _ : nat => t));
        [reflexivity|].
      unfold tab2. apply tab_ext. intros i _. symmetry. apply repeat_tab.
    - rewrite hard_mining_spec by (auto; apply repeat_length).
      assert (Hlab : forall i j, (i < bs)%nat -> (j < bs)%nat ->
                label (repeat t bs) j = label (repeat t bs) i).
      { intros i j Hi Hj. unfold label. rewrite !repeat_tab.
        now rewrite !nth_tab by assumption. }
      f_equal. f_equal.
      + apply tab_ext. intros i Hi. unfold masked_max.
        rewrite (tab_ext bs _ (fun _ => c)).
        * apply rmax_const. lia.
        * intros j Hj. rewrite mask_pos_at_1 by now apply Hlab. lra.
      + apply tab_ext. intros i Hi. unfold masked_min.
        rewrite (tab_ext bs _ (fun _ => c)).
        * apply rmin_const. lia.
        * intros j Hj.
          rewrite (tab_ext bs (fun k => c * mask_neg_at (repeat t bs) i k) (fun _ => 0)).
          -- rewrite rmax_const by lia. lra.
          -- intros k Hk. rewrite mask_neg_at_0 by now apply Hlab. lra. }
  unfold OriTripletLoss.construct. rewrite Hdist, Hmine.
  cbv zeta. cbn [fst snd]. unfold ones_like. rewrite map_tab.
  rewrite MarginRankingLoss_tab. cbn [nth_error]. f_equal.
  rewrite mean_const by lia. rewrite relu_Rmax.
  cbn [MarginRankingLoss.margin OriTripletLoss.ranking_loss MarginRankingLoss.init].
  f_equal. lra.
Qed.

Lemma construct_single_sample_witness :
  (length [1; 2] = 2%nat /\ (1 <= 2)%nat /\
   (2 <= OriTripletLoss.batch_size (OriTripletLoss.init 0.3 64))%nat) /\
  OriTripletLoss.construct (OriTripletLoss.init 0.3 64) [[1; 2]] [7%Z] =
  Some (Rmax 0 (OriTripletLoss.margin (OriTripletLoss.init 0.3 64))).
Proof.
  assert (Hx : length [1; 2] = 2%nat) by reflexivity.
  assert (HD : (1 <= 2)%nat) by lia.
  assert (Hbs : (2 <= OriTripletLoss.batch_size (OriTripletLoss.init 0.3 64))%nat)
    by (cbn; lia).
  split; [exact (conj Hx (conj HD Hbs))|].
  exact (construct_single_sample (OriTripletLoss.init 0.3 64) 2 [1; 2] 7%Z Hx HD Hbs).
Defined.

(** ** [softmax_weights] *)




(** ** [TripletLoss_WRT] *)

Lemma tab2_length {A} (m n : nat) (f : nat -> nat -> A) : length (tab2 m n f) = m.
Proof. unfold tab2. apply tab_length. Qed.

Lemma ReduceSum_tab2 (m n : nat) (f : nat -> nat -> R) :
  ReduceSum (tab2 m n f) = tab m (fun i => sum (tab n (f i))).
Proof. unfold ReduceSum, tab2. apply map_tab. Qed.

Lemma soft_mining_spec (B : nat) (d : nat -> nat -> R) (targets : list Z) :
  length targets = B ->
  TripletLoss_WRT.soft_mining (tab2 B B d) targets =
  Some (tab B (soft_positive B d targets), tab B (soft_negative B d targets)).
Proof.
  intros Ht. unfold TripletLoss_WRT.soft_mining. cbv zeta.
  rewrite tab2_length. rewrite (BroadcastTo_row B B targets Ht).
  assert (HT : tab B (fun _ : nat => targets) = tab2 B B (fun _ j => label targets j)).
  { unfold tab2. apply tab_ext. intros i _. apply tab_nth, Ht. }
  rewrite HT. rewrite transpose_tab2 by lia.
  unfold equal, notequal, cast, mul, neg.
  rewrite !ew2_tab2, !map_tab2, !ew2_tab2.
  change (fun i j => b2r (Z.eqb (label targets j) (label targets i)))
    with (mask_pos_at targets).
  change (fun i j => b2r (negb (Z.eqb (label targets j) (label targets i))))
    with (mask_neg_at targets).
  rewrite map_tab2, !softmax_weights_tab2, !ew2_tab2, !ReduceSum_tab2.
  reflexivity.
Qed.

Lemma construct_wrt_spec (B D : nat) (inputs : mat) (targets : list Z) :
  shape B D inputs -> (1 <= D)%nat -> length targets = B ->
  TripletLoss_WRT.construct inputs targets =
  Some (mean (tab B (fun i =>
    ln (1 + exp (- 1 *
      (soft_negative B (fun i j => wrt_dist (row inputs i) (row inputs j)) targets i
       - soft_positive B (fun i j => wrt_dist (row inputs i) (row inputs j)) targets i)))))).
Proof.
  intros Hs HD Ht. unfold TripletLoss_WRT.construct.
  rewrite (pdist_ms_spec B B D) by (auto; lia).
  change (fun i j => sqrt (clip 1e-12 1e7 (sqdist (row inputs i) (row inputs j))))
    with (fun i j => wrt_dist (row inputs i) (row inputs j)).
  rewrite soft_mining_spec by assumption.
  cbv zeta. cbn [fst snd]. unfold full, SoftMarginLoss, vsub.
  rewrite tab_length, repeat_tab, !bcast2_tab. reflexivity.
Qed.

Lemma mask_pos_at_01 (targets : list Z) (i j : nat) :
  mask_pos_at targets i j = 0 \/ mask_pos_at targets i j = 1.
Proof. unfold mask_pos_at. destruct (Z.eqb _ _); [now right | now left]. Qed.

Lemma mask_neg_at_01 (targets : list Z) (i j : nat) :
  mask_neg_at targets i j = 0 \/ mask_neg_at targets i j = 1.
Proof. unfold mask_neg_at. destruct (Z.eqb _ _); [now left | now right]. Qed.

Lemma weight_nonneg (C : nat) (d m : nat -> nat -> R) (i j : nat) :
  (forall j', (j' < C)%nat -> m i j' = 0 \/ m i j' = 1) -> (j < C)%nat ->
  0 <= weight C d m i j.
Proof.
  intros H01 Hj. unfold weight.
  set (mx := rmax (tab C (fun j' => d i j' * m i j'))).
  assert (HS : 0 <= sum (tab C (fun j' => exp (d i j' - mx) * m i j'))).
  { apply (softmax_denominator C (fun j' => exp (d i j' - mx)) (m i)).
    - intros j' _. left. apply exp_pos.
    - exact H01. }
  apply Rmult_le_pos; [|left; apply Rinv_0_lt_compat; lra].
  assert (0 < exp (d i j - mx)) by apply exp_pos.
  destruct (H01 j Hj) as [-> | ->]; lra.
Qed.

Lemma mean_tab_pos (n : nat) (f : nat -> R) :
  (1 <= n)%nat -> (forall i, (i < n)%nat -> 0 < f i) -> 0 < mean (tab n f).
Proof.
  intros Hn H. unfold mean. rewrite tab_length.
  apply Rmult_lt_0_compat; [|apply Rinv_0_lt_compat, lt_0_INR; lia].
  unfold tab. apply (sum_map_pos f (seq 0 n) 0%nat).
  - intros i Hi. apply in_seq in Hi. left. apply H. lia.
  - apply in_seq. lia.
  - apply H. lia.
Qed.

Lemma soft_margin_pos (z : R) : 0 < ln (1 + exp z).
Proof.
  rewrite <- ln_1. apply ln_increasing; [lra|].
  pose proof (exp_pos z). lra.
Qed.

(** X15: on a non-empty batch [TripletLoss_WRT.construct] returns a loss,
    and that loss is strictly positive: it is a mean of terms
    [log(1 + exp(..))]. *)
Theorem construct_wrt_positive (B D : nat) (inputs : mat) (targets : list Z) :
  shape B D inputs -> (1 <= D)%nat -> length targets = B -> (1 <= B)%nat ->
  exists loss, TripletLoss_WRT.construct inputs targets = Some loss /\ 0 < loss.
Proof.
  intros Hs HD Ht HB. eexists.
  split; [apply (construct_wrt_spec B D); assumption|].
  apply mean_tab_pos; [exact HB|]. intros i _. apply soft_margin_pos.
Qed.

Lemma construct_wrt_positive_witness :
  (shape 2 1 [[0]; [3]] /\ (1 <= 1)%nat /\ length [1%Z; 2%Z] = 2%nat /\ (1 <= 2)%nat) /\
  exists loss,
    TripletLoss_WRT.construct [[0]; [3]] [1%Z; 2%Z] = Some loss /\ 0 < loss.
Proof.
  assert (Hs : shape 2 1 [[0]; [3]]) by (split; [reflexivity | repeat constructor]).
  assert (HD : (1 <= 1)%nat) by lia.
  assert (Ht : length [1%Z; 2%Z] = 2%nat) by reflexivity.
  assert (HB : (1 <= 2)%nat) by lia.
  split; [exact (conj Hs (conj HD (conj Ht HB)))|].
  exact (construct_wrt_positive 2 1 [[0]; [3]] [1%Z; 2%Z] Hs HD Ht HB).
Defined.

Lemma wrt_dist_pos (x y : vec) : 0 < wrt_dist x y.
Proof. unfold wrt_dist. apply sqrt_clip_pos. lra. Qed.

(** X16: for every anchor the softmax-weighted positive distance and the
    softmax-weighted negative distance are not negative, and the weighted
    negative distance is zero for an anchor without any sample of another
    label. *)
Theorem soft_mining_bounds (B D : nat) (inputs : mat) (targets : list Z) (i : nat) :
  shape B D inputs -> (1 <= D)%nat -> length targets = B -> (i < B)%nat ->
  exists dist_mat furthest_positive closest_negative,
    pdist_ms inputs inputs = Some dist_mat /\
    TripletLoss_WRT.soft_mining dist_mat targets =
      Some (furthest_positive, closest_negative) /\
    0 <= nth i furthest_positive 0 /\
    0 <= nth i closest_negative 0 /\
    ((forall j, (j < B)%nat -> label targets j = label targets i) ->
     nth i closest_negative 0 = 0).
Proof.
  intros Hs HD Ht Hi.
  set (d := fun i j => wrt_dist (row inputs i) (row inputs j)).
  exists (tab2 B B d), (tab B (soft_positive B d targets)),
         (tab B (soft_negative B d targets)).
  split; [apply (pdist_ms_spec B B D); auto; lia|].
  split; [apply soft_mining_spec; assumption|].
  rewrite !nth_tab by assumption.
  assert (Hd : forall j, 0 < d i j) by (intros j; apply wrt_dist_pos).
  split; [|split].
  - unfold soft_positive, tab. apply sum_map_nonneg. intros j Hj. apply in_seq in Hj.
    apply Rmult_le_pos.
    + specialize (Hd j). destruct (mask_pos_at_01 targets i j) as [-> | ->]; lra.
    + apply weight_nonneg; [|lia]. intros j' _. apply mask_pos_at_01.
  - unfold soft_negative, tab. apply sum_map_nonneg. intros j Hj. apply in_seq in Hj.
    apply Rmult_le_pos.
    + specialize (Hd j). destruct (mask_neg_at_01 targets i j) as [-> | ->]; lra.
    + apply weight_nonneg; [|lia]. intros j' _. apply mask_neg_at_01.
  - intros Hsame. unfold soft_negative.
    rewrite (tab_ext B _ (fun _ => 0)).
    + unfold tab. apply sum_map_zero.
    + intros j Hj. rewrite mask_neg_at_0 by now apply Hsame. ring.
Qed.

Lemma soft_mining_bounds_witness :
  (shape 2 1 [[0]; [3]] /\ (1 <= 1)%nat /\ length [1%Z; 2%Z] = 2%nat /\ (0 < 2)%nat) /\
  exists dist_mat furthest_positive closest_negative,
    pdist_ms [[0]; [3]] [[0]; [3]] = Some dist_mat /\
    TripletLoss_WRT.soft_mining dist_mat [1%Z; 2%Z] =
      Some (furthest_positive, closest_negative) /\
    0 <= nth 0 furthest_positive 0 /\
    0 <= nth 0 closest_negative 0 /\
    ((forall j, (j < 2)%nat -> label [1%Z; 2%Z] j = label [1%Z; 2%Z] 0) ->
     nth 0 closest_negative 0 = 0).
Proof.
  assert (Hs : shape 2 1 [[0]; [3]]) by (split; [reflexivity | repeat constructor]).
  assert (HD : (1 <= 1)%nat) by lia.
  assert (Ht : length [1%Z; 2%Z] = 2%nat) by reflexivity.
  assert (Hi : (0 < 2)%nat) by lia.
  split; [exact (conj Hs (conj HD (conj Ht Hi)))|].
  exact (soft_mining_bounds 2 1 [[0]; [3]] [1%Z; 2%Z] 0 Hs HD Ht Hi).
Defined.

(** X17: for the negative distances the subtraction of the row maximum has
    no effect: the anchor's own column is unmasked and contributes 0 to
    [max(dist * mask)], all other products are negative, so [max_v] is 0 and
    the weighted negative distance of anchor [i] is
    [sum_j neg[i][j] * d[i][j] * exp(-d[i][j])] over
    [sum_j neg[i][j] * exp(-d[i][j]) + 1e-6]. *)
Theorem soft_negative_unshifted (B D : nat) (inputs : mat) (targets : list Z) (i : nat) :
  shape B D inputs -> (1 <= D)%nat -> length targets = B -> (i < B)%nat ->
  exists dist_mat furthest_positive closest_negative,
    pdist_ms inputs inputs = Some dist_mat /\
    TripletLoss_WRT.soft_mining dist_mat targets =
      Some (furthest_positive, closest_negative) /\
    nth i closest_negative 0 =
      sum (tab B (fun j =>
        mask_neg_at targets i j * at2 dist_mat i j * exp (- at2 dist_mat i j)))
      / (sum (tab B (fun j => mask_neg_at targets i j * exp (- at2 dist_mat i j)))
         + 1e-6).
Proof.
  intros Hs HD Ht Hi.
  set (d := fun i j => wrt_dist (row inputs i) (row inputs j)).
  exists (tab2 B B d), (tab B (soft_positive B d targets)),
         (tab B (soft_negative B d targets)).
  split; [apply (pdist_ms_spec B B D); auto; lia|].
  split; [apply soft_mining_spec; assumption|].
  rewrite nth_tab by assumption.
  assert (Hd : forall j, 0 < d i j) by (intros j; apply wrt_dist_pos).
  set (n := mask_neg_at targets i).
  assert (Hn : forall j, n j = 0 \/ n j = 1) by (intros j; apply mask_neg_at_01).
  assert (Eat : forall (g : R -> R) (h : nat -> R),
            tab B (fun j => h j * g (at2 (tab2 B B d) i j)) = tab B (fun j => h j * g (d i j))).
  { intros g h. apply tab_ext. intros j Hj. now rewrite at2_tab2. }
  rewrite (Eat (fun v => exp (- v)) n).
  rewrite (tab_ext B (fun j => n j * at2 (tab2 B B d) i j * exp (- at2 (tab2 B B d) i j))
                     (fun j => n j * d i j * exp (- d i j)))
    by (intros j Hj; now rewrite at2_tab2).
  unfold soft_negative, weight. fold n.
  assert (Hmx : rmax (tab B (fun j' => - (d i j' * n j') * n j')) = 0).
  { apply Rle_antisym.
    - assert (Hne : tab B (fun j' => - (d i j' * n j') * n j') <> []).
      { intros E. apply (f_equal (@length R)) in E. rewrite tab_length in E.
        simpl in E. lia. }
      destruct (proj1 (In_tab _ _ _) (rmax_In _ Hne)) as (j & _ & ->).
      specialize (Hd j). destruct (Hn j) as [-> | ->]; lra.
    - apply rmax_ge. apply In_tab. exists i. split; [assumption|].
      unfold n. rewrite mask_neg_at_0 by reflexivity. ring. }
  rewrite Hmx.
  assert (HZ : sum (tab B (fun j' => exp (- (d i j' * n j') - 0) * n j')) =
               sum (tab B (fun j => n j * exp (- d i j)))).
  { f_equal. apply tab_ext. intros j _.
    destruct (Hn j) as [-> | ->]; [ring|].
    replace (- (d i j * 1) - 0) with (- d i j) by ring. ring. }
  rewrite HZ.
  unfold tab at 1 3. rewrite <- sum_map_div. f_equal. apply map_ext. intros j.
  destruct (Hn j) as [-> | ->]; [unfold Rdiv; ring|].
  replace (- (d i j * 1) - 0) with (- d i j) by ring. unfold Rdiv. ring.
Qed.

Lemma soft_negative_unshifted_witness :
  (shape 2 1 [[0]; [3]] /\ (1 <= 1)%nat /\ length [1%Z; 2%Z] = 2%nat /\ (0 < 2)%nat) /\
  exists dist_mat furthest_positive closest_negative,
    pdist_ms [[0]; [3]] [[0]; [3]] = Some dist_mat /\
    TripletLoss_WRT.soft_mining dist_mat [1%Z; 2%Z] =
      Some (furthest_positive, closest_negative) /\
    nth 0 closest_negative 0 =
      sum (tab 2 (fun j =>
        mask_neg_at [1%Z; 2%Z] 0 j * at2 dist_mat 0 j * exp (- at2 dist_mat 0 j)))
      / (sum (tab 2 (fun j => mask_neg_at [1%Z; 2%Z] 0 j * exp (- at2 dist_mat 0 j)))
         + 1e-6).
Proof.
  assert (Hs : shape 2 1 [[0]; [3]]) by (split; [reflexivity | repeat constructor]).
  assert (HD : (1 <= 1)%nat) by lia.
  assert (Ht : length [1%Z; 2%Z] = 2%nat) by reflexivity.
  assert (Hi : (0 < 2)%nat) by lia.
  split; [exact (conj Hs (conj HD (conj Ht Hi)))|].
  exact (soft_negative_unshifted 2 1 [[0]; [3]] [1%Z; 2%Z] 0 Hs HD Ht Hi).
Defined.

(** ** Shift of the logits *)

Lemma spec_cross_entropy_tab (e : R) (B K : nat) (inputs : mat) (targets : list Z) :
  shape B K inputs -> length targets = B ->
  spec_cross_entropy e K inputs targets =
  - mean (tab B (fun i =>
      sum (tab K (fun k =>
        smooth_target e K (label targets i) k * log_softmax (row inputs i) k)))).
Proof.
  intros Hs Ht. unfold spec_cross_entropy. f_equal. f_equal.
  assert (HL : length (combine inputs targets) = B).
  { rewrite length_combine. destruct Hs. lia. }
  rewrite <- (tab_map_nth B (combine inputs targets) ([], 0%Z) _ HL).
  apply tab_ext. intros i _.
  rewrite nth_batch by (destruct Hs; congruence). reflexivity.
Qed.

Lemma log_softmax_shift (K : nat) (f : nat -> R) (c : R) (k : nat) :
  (k < K)%nat ->
  log_softmax (tab K (fun k' => f k' + c)) k = log_softmax (tab K f) k.
Proof.
  intros Hk. unfold log_softmax. rewrite !nth_tab by assumption. rewrite !map_tab.
  assert (HS : 0 < sum (tab K (fun k' => exp (f k')))).
  { unfold tab. apply (sum_map_pos (fun k' => exp (f k')) (seq 0 K) k).
    - intros a _. left. apply exp_pos.
    - apply in_seq. lia.
    - apply exp_pos. }
  assert (E : sum (tab K (fun k' => exp (f k' + c))) =
              exp c * sum (tab K (fun k' => exp (f k')))).
  { unfold tab. rewrite <- sum_map_scal. f_equal. apply map_ext. intros a.
    rewrite exp_plus. ring. }
  rewrite E, ln_mult by (auto; apply exp_pos). rewrite ln_exp. ring.
Qed.

(** X20: the loss does not depend on a constant added to all the logits of
    an example: adding a tensor of shape [(B, 1)] to the logits leaves the
    value of [CrossEntropyLoss.construct] unchanged. *)
Theorem cross_entropy_shift (self : CrossEntropyLoss.t) (B K : nat)
    (inputs : mat) (targets : list Z) (c : vec) :
  shape B K inputs -> length targets = B -> CrossEntropyLoss.num_classes self = K ->
  length c = B ->
  CrossEntropyLoss.construct self (add inputs (map (fun v => [v]) c)) targets =
  CrossEntropyLoss.construct self inputs targets.
Proof.
  intros Hs Ht HK Hc.
  assert (Hadd : add inputs (map (fun v => [v]) c) =
                 tab2 B K (fun i k => at2 inputs i k + nth i c 0)).
  { rewrite (shape_tab2 B K inputs Hs) at 1.
    rewrite <- (tab_map_nth B c 0 (fun v => [v]) Hc).
    unfold add. apply ew2_tab2_col_r. }
  rewrite Hadd.
  rewrite (construct_spec self B K) by (auto; apply shape_tab2_intro).
  rewrite (construct_spec self B K) by assumption.
  rewrite !(spec_cross_entropy_tab _ B K) by (auto; apply shape_tab2_intro).
  f_equal. f_equal. apply tab_ext. intros i Hi. f_equal.
  apply tab_ext. intros k Hk. f_equal.
  unfold row, tab2. rewrite nth_tab by assumption.
  rewrite (log_softmax_shift K (at2 inputs i) (nth i c 0) k Hk).
  f_equal. symmetry. apply (tab_nth K (nth i inputs []) 0).
  eapply shape_row; eauto.
Qed.

Lemma cross_entropy_shift_witness :
  (shape 2 2 [[1; 2]; [3; 4]] /\ length [0%Z; 1%Z] = 2%nat /\
   CrossEntropyLoss.num_classes (CrossEntropyLoss.init 2 0.1 true) = 2%nat /\
   length [5; 7] = 2%nat) /\
  CrossEntropyLoss.construct (CrossEntropyLoss.init 2 0.1 true)
    (add [[1; 2]; [3; 4]] (map (fun v => [v]) [5; 7])) [0%Z; 1%Z] =
  CrossEntropyLoss.construct (CrossEntropyLoss.init 2 0.1 true) [[1; 2]; [3; 4]] [0%Z; 1%Z].
Proof.
  assert (Hs : shape 2 2 [[1; 2]; [3; 4]]) by (split; [reflexivity | repeat constructor]).
  assert (Ht : length [0%Z; 1%Z] = 2%nat) by reflexivity.
  assert (HK : CrossEntropyLoss.num_classes (CrossEntropyLoss.init 2 0.1 true) = 2%nat)
    by reflexivity.
  assert (Hc : length [5; 7] = 2%nat) by reflexivity.
  split; [exact (conj Hs (conj Ht (conj HK Hc)))|].
  exact (cross_entropy_shift (CrossEntropyLoss.init 2 0.1 true) 2 2
           [[1; 2]; [3; 4]] [0%Z; 1%Z] [5; 7] Hs Ht HK Hc).
Defined.
